(** * A shallow embedding of [script.js]: the product table widget

    The page keeps five globals ([allProducts], [filteredProducts],
    [currentPage], [itemsPerPage], [currentSort]) and drives a handful of
    DOM nodes from them.  The development follows the source function by
    function:

    - JavaScript strings are modelled as [string], one [ascii] per code
      unit, so the model covers strings whose code units are below 256;
      [toLowerCase], [trim], [includes] and [encodeURIComponent] are
      written out for that range.
    - Numbers that the code only uses as integers (page numbers, lengths,
      the attempt counter, the 32-bit hash) are [Z]; the [<<] operator's
      wrap-around to a signed 32-bit integer is written out.  Prices are
      [Z] as well: the comparators only look at the sign of a difference.
    - [Array.prototype.sort] is modelled by a stable insertion sort driven
      by the comparator's numeric result.
    - The two browser facilities whose behaviour is not in the source,
      [String.prototype.localeCompare] and the [URL] constructor, are
      section variables.
    - The globals and the DOM nodes the functions write to are explicit
      records; every function is a state transformer.
    - The row template writes image URLs as they are into attributes and
      into the script of the [onerror] attribute; [Markup] records whether
      this quoting leaves a URL intact ([Element]) or not ([Garbled], not
      modelled further). *)

From Stdlib Require Import ZArith List Bool Ascii String Lia.
From Stdlib Require Import Permutation Sorted.
Import ListNotations.

Local Open Scope string_scope.
Local Open Scope Z_scope.

(** ** JavaScript strings *)

Module JsString.

Definition charCode (c : ascii) : Z := Z.of_nat (nat_of_ascii c).

(** Upper-case letters among the code units below 256: A-Z, and
    U+00C0..U+00DE without the multiplication sign U+00D7. *)
Definition isUpper (c : ascii) : bool :=
  let n := charCode c in
  ((65 <=? n) && (n <=? 90))
  || ((192 <=? n) && (n <=? 222) && negb (n =? 215)).

Definition lowerChar (c : ascii) : ascii :=
  if isUpper c then ascii_of_nat (nat_of_ascii c + 32) else c.

Fixpoint toLowerCase (s : string) : string :=
  match s with
  | EmptyString => EmptyString
  | String c s' => String (lowerChar c) (toLowerCase s')
  end.

(** White space and line terminators among the code units below 256. *)
Definition isWhite (c : ascii) : bool :=
  let n := charCode c in
  ((9 <=? n) && (n <=? 13)) || (n =? 32) || (n =? 160).

Fixpoint trimStart (s : string) : string :=
  match s with
  | EmptyString => EmptyString
  | String c s' => if isWhite c then trimStart s' else s
  end.

Fixpoint trimEnd (s : string) : string :=
  match s with
  | EmptyString => EmptyString
  | String c s' =>
      match trimEnd s' with
      | EmptyString => if isWhite c then EmptyString else String c EmptyString
      | r => String c r
      end
  end.

Definition trim (s : string) : string := trimEnd (trimStart s).

(** [startsWith s t]: [t] is a prefix of [s]. *)
Fixpoint startsWith (s t : string) {struct t} : bool :=
  match t, s with
  | EmptyString, _ => true
  | String _ _, EmptyString => false
  | String b t', String a s' => Ascii.eqb a b && startsWith s' t'
  end.

(** [includes s t]: [t] occurs in [s] at some position. *)
Fixpoint includes (s t : string) : bool :=
  startsWith s t
  || match s with
     | EmptyString => false
     | String _ s' => includes s' t
     end.

(** Truthiness of a string value: every string but the empty one. *)
Definition truthy (s : string) : bool := negb (String.eqb s "").

Definition hexDigit (d : Z) : ascii :=
  match d with
  | 0 => "0" | 1 => "1" | 2 => "2" | 3 => "3" | 4 => "4" | 5 => "5"
  | 6 => "6" | 7 => "7" | 8 => "8" | 9 => "9" | 10 => "A" | 11 => "B"
  | 12 => "C" | 13 => "D" | 14 => "E" | _ => "F"
  end%char.

Definition percentByte (b : Z) : string :=
  String "%" (String (hexDigit (b / 16)) (String (hexDigit (b mod 16)) "")).

(** Characters [encodeURIComponent] leaves alone: letters, digits and
    - _ . ! ~ * ' ( ) *)
Definition isUnreserved (c : ascii) : bool :=
  let n := charCode c in
  ((65 <=? n) && (n <=? 90)) || ((97 <=? n) && (n <=? 122))
  || ((48 <=? n) && (n <=? 57))
  || (n =? 45) || (n =? 95) || (n =? 46) || (n =? 33) || (n =? 126)
  || (n =? 42) || (n =? 39) || (n =? 40) || (n =? 41).

(** Every other character is replaced by the escaped bytes of its UTF-8
    encoding: one byte below 128, two bytes from 128 to 255. *)
Definition encodeChar (c : ascii) : string :=
  let n := charCode c in
  if isUnreserved c then String c ""
  else if n <? 128 then percentByte n
  else percentByte (192 + n / 64) ++ percentByte (128 + n mod 64).

Fixpoint encodeURIComponent (s : string) : string :=
  match s with
  | EmptyString => EmptyString
  | String c s' => encodeChar c ++ encodeURIComponent s'
  end.

End JsString.

Import JsString.

(** ** Numbers *)

Module JsNumber.

(** [ToInt32]: reduction modulo 2^32 into the signed range. *)
Definition toInt32 (z : Z) : Z := (z + 2 ^ 31) mod 2 ^ 32 - 2 ^ 31.

(** [a << n] on numbers holding integers. *)
Definition shl (a n : Z) : Z :=
  toInt32 (Z.shiftl (toInt32 a) (Z.land n 31)).

(** [Math.ceil (a / b)] for integers [a >= 0] and [b > 0]. *)
Definition ceilDiv (a b : Z) : Z := - ((- a) / b).

(** [a % b] truncates towards zero. *)
Definition jsRem (a b : Z) : Z := Z.rem a b.

End JsNumber.

Import JsNumber.

(** ** Arrays *)

Module JsArray.

Section Sort.
Context {A : Type}.
Variable comparefn : A -> A -> Z.

(** [insert x l] puts [x] in front of the first element it does not
    compare greater than, so that [x], which came earlier in the
    array, stays in front of the elements it compares equal to. *)
Fixpoint insert (x : A) (l : list A) : list A :=
  match l with
  | [] => [x]
  | y :: l' => if comparefn x y <=? 0 then x :: l else y :: insert x l'
  end.

(** [Array.prototype.sort]: a stable sort by [comparefn]. *)
Fixpoint sort (l : list A) : list A :=
  match l with
  | [] => []
  | x :: l' => insert x (sort l')
  end.

(** The order the comparator asks for: never a positive result from
    an element to a later one. *)
Definition ordered (x y : A) : Prop := comparefn x y <= 0.
End Sort.

(** [Array.prototype.slice (first, last)], with the relative indices of
    the language: a negative index counts from the end. *)
Definition relIndex (len i : Z) : Z :=
  if i <? 0 then Z.max (len + i) 0 else Z.min i len.

Definition slice {A : Type} (l : list A) (first last : Z) : list A :=
  let len := Z.of_nat (List.length l) in
  let k := relIndex len first in
  let final := relIndex len last in
  firstn (Z.to_nat (final - k)) (skipn (Z.to_nat k) l).

(** The integers [first, first + 1, ..., last] a counting loop visits. *)
Definition range (first last : Z) : list Z :=
  map (fun k => first + Z.of_nat k) (seq 0 (Z.to_nat (last - first + 1))).

End JsArray.

Import JsArray.

(** ** Data model *)

Record Category := mkCategory {
  cat_name : string;
  cat_image : string
}.

Record Product := mkProduct {
  id : Z;
  title : string;
  price : Z;
  description : string;
  category : option Category;
  images : list string
}.

(** The globals declared under "State Management". *)
Record Globals := mkGlobals {
  allProducts : list Product;
  filteredProducts : list Product;
  currentPage : Z;
  itemsPerPage : Z;
  currentSort : string
}.

Definition initialGlobals : Globals := mkGlobals [] [] 1 10 "".

Definition set_filteredProducts (l : list Product) (g : Globals) : Globals :=
  mkGlobals (allProducts g) l (currentPage g) (itemsPerPage g) (currentSort g).

Definition set_currentPage (p : Z) (g : Globals) : Globals :=
  mkGlobals (allProducts g) (filteredProducts g) p (itemsPerPage g)
            (currentSort g).

Definition set_itemsPerPage (n : Z) (g : Globals) : Globals :=
  mkGlobals (allProducts g) (filteredProducts g) (currentPage g) n
            (currentSort g).

Definition set_currentSort (s : string) (g : Globals) : Globals :=
  mkGlobals (allProducts g) (filteredProducts g) (currentPage g)
            (itemsPerPage g) s.

(** ** Image elements *)

(** The [div.product-image-wrapper] around a product image: its data
    attributes, and whether its content has been replaced by the
    placeholder block. *)
Record Wrapper := mkWrapper {
  data_image_index : Z;
  data_product_id : Z;
  data_attempt : option Z;
  placeholder : bool
}.

(** An [img] element: its [src], the classes and style the handler reads
    and writes, the URL its [onerror] attribute passes to the handler, and
    the wrapper [closest('.product-image-wrapper')] finds, if any. *)
Record Image := mkImage {
  src : string;
  image_error : bool;
  category_image : bool;
  display_none : bool;
  onerror_url : string;
  wrapper : option Wrapper
}.

(** ** The nodes of the page the script writes to *)

Inductive PageItem : Type :=
| PrevButton (disabled : bool) (target : Z)
| PageLink (active : bool) (page : Z)
| Ellipsis
| NextButton (disabled : bool) (target : Z).

(** What the template of [createProductRow] yields for an image.  The
    template writes the image's URL as it is into the [src] attribute and
    into the script of the [onerror] attribute, between single quotes.
    For a URL that this quoting leaves intact the markup is the [img]
    element the template describes.  For any other URL the attributes are
    not the ones the template means: the text may end early or be read as
    something else, and what a browser makes of it is not modelled. *)
Inductive Markup : Type :=
| Element (img : Image)
| Garbled (url : string).

Record Row := mkRow {
  row_product : Product;
  row_category_image : option Markup;
  row_images : list Markup
}.

Record PageInfo := mkPageInfo {
  info_start : Z;
  info_end : Z;
  info_total : Z
}.

Record Dom := mkDom {
  productTableBody : list Row;
  pagination : list PageItem;
  pageInfo : option PageInfo;
  noResults_shown : bool;
  tableContainer_shown : bool;
  scrolls : nat
}.

Record Page := mkPage {
  globals : Globals;
  dom : Dom
}.

(** ** The image resolver *)

Module ImageResolver.

Definition direct (originalUrl : string) : string := originalUrl.

Definition proxyA (originalUrl : string) : string :=
  "https://wsrv.nl/?url=" ++ encodeURIComponent originalUrl ++ "&default=1".

Definition proxyB (originalUrl : string) : string :=
  "https://images.weserv.nl/?url=" ++ encodeURIComponent originalUrl
    ++ "&default=1".

Definition corsRelay (originalUrl : string) : string :=
  "https://corsproxy.io/?" ++ encodeURIComponent originalUrl.

(** The array [strategies] of [getImageWithStrategies]. *)
Definition initialStrategies (originalUrl : string) : list string :=
  [direct originalUrl; proxyA originalUrl; proxyB originalUrl].

(** The array [strategies] of [handleImageError]. *)
Definition fallbackStrategies (originalUrl : string) : list string :=
  [direct originalUrl; proxyA originalUrl; proxyB originalUrl;
   corsRelay originalUrl].

(** [originalUrl.split('').reduce((a, b) => ((a << 5) - a) + b.charCodeAt(0), 0)] *)
Definition hashStep (a : Z) (b : ascii) : Z := (shl a 5 - a) + charCode b.

Definition hash (originalUrl : string) : Z :=
  fold_left hashStep (list_ascii_of_string originalUrl) 0.

(** Indexing an array: [None] stands for [undefined]. *)
Definition at_index (l : list string) (i : Z) : option string :=
  if i <? 0 then None else nth_error l (Z.to_nat i).

Definition orUndefined (o : option string) : string :=
  match o with Some s => s | None => "undefined" end.

Definition getImageWithStrategies (originalUrl : string) : string :=
  if negb (truthy originalUrl) then ""
  else
    let strategies := initialStrategies originalUrl in
    orUndefined
      (at_index strategies
         (jsRem (Z.abs (hash originalUrl))
                (Z.of_nat (List.length strategies)))).

(** The index [Math.abs(hash) % strategies.length] selects. *)
Definition strategyIndex (originalUrl : string) : Z :=
  jsRem (Z.abs (hash originalUrl))
        (Z.of_nat (List.length (initialStrategies originalUrl))).

Definition set_src (s : string) (img : Image) : Image :=
  mkImage s (image_error img) (category_image img) (display_none img)
          (onerror_url img) (wrapper img).

Definition set_wrapper (w : Wrapper) (img : Image) : Image :=
  mkImage (src img) (image_error img) (category_image img)
          (display_none img) (onerror_url img) (Some w).

Definition add_image_error (img : Image) : Image :=
  mkImage (src img) true (category_image img) (display_none img)
          (onerror_url img) (wrapper img).

Definition hide (img : Image) : Image :=
  mkImage (src img) (image_error img) (category_image img) true
          (onerror_url img) (wrapper img).

Definition set_data_attempt (a : Z) (w : Wrapper) : Wrapper :=
  mkWrapper (data_image_index w) (data_product_id w) (Some a)
            (placeholder w).

Definition set_placeholder (w : Wrapper) : Wrapper :=
  mkWrapper (data_image_index w) (data_product_id w) (data_attempt w) true.

(** [parseInt(wrapper.getAttribute('data-attempt') || '0')] *)
Definition attemptOf (w : Wrapper) : Z :=
  match data_attempt w with Some a => a | None => 0 end.

(** [handleImageError(img, originalUrl)].  When the placeholder replaces
    the wrapper's content the [img] leaves the document; the model keeps
    the wrapper with it so that the placeholder stays observable, which
    is harmless because the guard on [image-error] returns before
    [closest] is consulted again. *)
Definition handleImageError (img : Image) (originalUrl : string) : Image :=
  if image_error img then img
  else
    match wrapper img with
    | None => if category_image img then hide img else img
    | Some w =>
        let attempt := attemptOf w + 1 in
        let strategies := fallbackStrategies originalUrl in
        if attempt <? Z.of_nat (List.length strategies) then
          set_src (orUndefined (at_index strategies attempt))
                  (set_wrapper (set_data_attempt attempt w) img)
        else
          set_wrapper (set_placeholder w) (add_image_error img)
    end.

(** The browser's load-failure event runs the element's [onerror]
    attribute, which calls the handler with the URL written into it. *)
Definition onerror (img : Image) : Image :=
  handleImageError img (onerror_url img).

Fixpoint failures (n : nat) (img : Image) : Image :=
  match n with
  | O => img
  | S n' => failures n' (onerror img)
  end.


(** The stored attempt index of an element; an element without a
    wrapper stores none and counts as 0. *)
Definition attemptIndex (img : Image) : Z :=
  match wrapper img with Some w => attemptOf w | None => 0 end.

Definition shows_placeholder (img : Image) : bool :=
  match wrapper img with Some w => placeholder w | None => false end.

(** The category [img] the template of [createProductRow] describes for
    [url]: no wrapper, the hash-selected source, and an [onerror]
    attribute that calls the handler with [url].  It is what the markup
    yields when the quoting leaves [url] intact, see [markup]. *)
Definition categoryImage (url : string) : Image :=
  mkImage (getImageWithStrategies url) false true false url None.

(** The wrapped product [img] the template of [createProductRow] describes
    for [cleanImg], under the same condition. *)
Definition productImage (productId index : Z) (cleanImg : string) : Image :=
  mkImage (getImageWithStrategies cleanImg) false false false cleanImg
          (Some (mkWrapper index productId (Some 0) false)).

(** The script the template writes into the [onerror] attribute. *)
Definition onerrorScript (url : string) : string :=
  "handleImageError(this, '" ++ url ++ "')".

(** The text up to the first single quote, and the text after that
    quote; [None] when there is no quote. *)
Fixpoint untilQuote (s : string) : option (string * string) :=
  match s with
  | EmptyString => None
  | String c rest =>
      if Ascii.eqb c "'" then Some (EmptyString, rest)
      else match untilQuote rest with
           | Some (literal, after) => Some (String c literal, after)
           | None => None
           end
  end.

(** The string literal that the quote after [this, ] opens in the script,
    for a text without backslash or line break: it runs to the next
    single quote.  The second component is what follows the literal, which
    is [)] when the literal is the whole URL. *)
Definition argumentLiteral (url : string) : option (string * string) :=
  untilQuote (url ++ "')").

(** Characters the template's quoting does not survive: a double quote
    ends the attribute value, an ampersand can start a character
    reference in it, a single quote ends the script's string literal, a
    backslash starts an escape sequence in it, and control characters
    (line breaks among them) are not allowed in it or are altered on the
    way. *)
Definition breaksQuoting (c : ascii) : bool :=
  (charCode c <? 32) || (charCode c =? 34) || (charCode c =? 38)
  || (charCode c =? 39) || (charCode c =? 92).

(** A URL the quoting leaves intact: a sufficient condition. *)
Fixpoint inlineSafe (url : string) : bool :=
  match url with
  | EmptyString => true
  | String c rest => negb (breaksQuoting c) && inlineSafe rest
  end.

(** The markup written for the element [img] that the template
    describes, whose handler URL is the URL written into the attributes. *)
Definition markup (img : Image) : Markup :=
  if inlineSafe (onerror_url img) then Element img
  else Garbled (onerror_url img).

End ImageResolver.

Import ImageResolver.

(** ** The page: query engine, paginator and renderer *)

Section Widget.

(** [a.localeCompare(b)]: negative, zero or positive. *)
Variable localeCompare : string -> string -> Z.

(** [new URL(s).protocol], or [None] when the constructor throws. *)
Variable urlProtocol : string -> option string.

(** *** Rows *)

Definition dropPrefix (pre s : string) : string :=
  if startsWith s pre then
    substring (String.length pre) (String.length s - String.length pre) s
  else s.

Fixpoint dropSuffix (suf s : string) : string :=
  match s with
  | EmptyString => EmptyString
  | String c s' => if String.eqb s suf then EmptyString
                   else String c (dropSuffix suf s')
  end.

Definition openQuote : string := String "[" (String "034" EmptyString).
Definition closeQuote : string := String "034" (String "]" EmptyString).

(** [img.trim().replace(/^\["|"\]$/g, '')] *)
Definition cleanImage (img : string) : string :=
  dropSuffix closeQuote (dropPrefix openQuote (trim img)).

(** The predicate of [images.filter] in [createProductRow]. *)
Definition validImage (img : string) : bool :=
  if negb (truthy img) then false
  else
    let cleanImg := cleanImage img in
    match urlProtocol cleanImg with
    | Some protocol =>
        String.eqb protocol "http:" || String.eqb protocol "https:"
    | None =>
        startsWith cleanImg "http://" || startsWith cleanImg "https://"
    end.

Fixpoint mapi {A B : Type} (f : A -> Z -> B) (l : list A) (i : Z) : list B :=
  match l with
  | [] => []
  | x :: l' => f x i :: mapi f l' (i + 1)
  end.

Definition createProductRow (product : Product) : Row :=
  let validImages := filter validImage (images product) in
  mkRow product
    (match category product with
     | Some c => if truthy (cat_image c)
                 then Some (markup (categoryImage (cat_image c))) else None
     | None => None
     end)
    (mapi (fun img index =>
             markup (productImage (id product) index (cleanImage img)))
          validImages 0).

(** *** Paginator *)

Definition totalPagesOf (g : Globals) : Z :=
  ceilDiv (Z.of_nat (List.length (filteredProducts g))) (itemsPerPage g).

(** The first and last page number of the window of numbered links. *)
Definition pageWindow (currentPage totalPages : Z) : Z * Z :=
  let maxVisiblePages := 5 in
  let startPage := Z.max 1 (currentPage - maxVisiblePages / 2) in
  let endPage := Z.min totalPages (startPage + maxVisiblePages - 1) in
  let startPage :=
    if endPage - startPage <? maxVisiblePages - 1
    then Z.max 1 (endPage - maxVisiblePages + 1)
    else startPage in
  (startPage, endPage).

Definition renderPagination (g : Globals) : list PageItem :=
  let totalPages := totalPagesOf g in
  if totalPages <=? 1 then []
  else
    let '(startPage, endPage) := pageWindow (currentPage g) totalPages in
    ([PrevButton (currentPage g =? 1) (currentPage g - 1)]
     ++ (if startPage >? 1
         then PageLink false 1 :: (if startPage >? 2 then [Ellipsis] else [])
         else [])
     ++ map (fun i => PageLink (i =? currentPage g) i)
            (range startPage endPage)
     ++ (if endPage <? totalPages
         then (if endPage <? totalPages - 1 then [Ellipsis] else [])
                ++ [PageLink false totalPages]
         else [])
     ++ [NextButton (currentPage g =? totalPages) (currentPage g + 1)])%list.

(** The page numbers of the numbered links of a pagination control, in
    the order they are listed. *)
Definition linkPages (items : list PageItem) : list Z :=
  flat_map (fun item => match item with
                        | PageLink _ page => [page]
                        | _ => []
                        end) items.

Definition updatePageInfo (g : Globals) : PageInfo :=
  let total := Z.of_nat (List.length (filteredProducts g)) in
  mkPageInfo ((currentPage g - 1) * itemsPerPage g + 1)
             (Z.min (currentPage g * itemsPerPage g) total)
             total.

Definition showNoResults (show : bool) (d : Dom) : Dom :=
  mkDom (productTableBody d) (pagination d) (pageInfo d) show (negb show)
        (scrolls d).

Definition renderProducts (p : Page) : Page :=
  let g := globals p in
  if (List.length (filteredProducts g) =? 0)%nat then
    mkPage g (showNoResults true (dom p))
  else
    let d := showNoResults false (dom p) in
    let startIndex := (currentPage g - 1) * itemsPerPage g in
    let endIndex := startIndex + itemsPerPage g in
    let productsToShow := slice (filteredProducts g) startIndex endIndex in
    mkPage g
      (mkDom (map createProductRow productsToShow)
             (renderPagination g)
             (Some (updatePageInfo g))
             (noResults_shown d) (tableContainer_shown d) (scrolls d)).

Definition scrollIntoView (d : Dom) : Dom :=
  mkDom (productTableBody d) (pagination d) (pageInfo d) (noResults_shown d)
        (tableContainer_shown d) (S (scrolls d)).

Definition changePage (page : Z) (p : Page) : Page :=
  let totalPages := totalPagesOf (globals p) in
  if (page <? 1) || (page >? totalPages) then p
  else
    let p' := renderProducts (mkPage (set_currentPage page (globals p)) (dom p)) in
    mkPage (globals p') (scrollIntoView (dom p')).

(** *** Query engine *)

(** The order of prices the comparators below induce. *)
Definition cheaper (a b : Product) : Prop := price a < price b.

Definition byPriceAsc (a b : Product) : Z := price a - price b.
Definition byPriceDesc (a b : Product) : Z := price b - price a.
Definition byNameAsc (a b : Product) : Z := localeCompare (title a) (title b).
Definition byNameDesc (a b : Product) : Z := localeCompare (title b) (title a).

(** The effect of [applySorting(sortType)] on [filteredProducts]. *)
Definition sorted (sortType : string) (l : list Product) : list Product :=
  if String.eqb sortType "price-asc" then sort byPriceAsc l
  else if String.eqb sortType "price-desc" then sort byPriceDesc l
  else if String.eqb sortType "name-asc" then sort byNameAsc l
  else if String.eqb sortType "name-desc" then sort byNameDesc l
  else l.

Definition applySorting (sortType : string) (g : Globals) : Globals :=
  set_filteredProducts (sorted sortType (filteredProducts g)) g.

(** The term [handleSearch] matches with. *)
Definition termOf (searchTerm : string) : string :=
  trim (toLowerCase searchTerm).

Definition matches (term : string) (product : Product) : bool :=
  includes (toLowerCase (title product)) term.

(** The value [handleSearch] first assigns to [filteredProducts]. *)
Definition filtered (searchTerm : string) (all : list Product) : list Product :=
  let term := termOf searchTerm in
  if String.eqb term "" then all else filter (matches term) all.

Definition handleSearch (searchTerm : string) (p : Page) : Page :=
  let g := globals p in
  let g := set_filteredProducts (filtered searchTerm (allProducts g)) g in
  let g := if truthy (currentSort g) then applySorting (currentSort g) g
           else g in
  let g := set_currentPage 1 g in
  renderProducts (mkPage g (dom p)).

Definition handleSort (p : Page) : Page :=
  let g := globals p in
  if truthy (currentSort g) then
    let g := applySorting (currentSort g) g in
    let g := set_currentPage 1 g in
    renderProducts (mkPage g (dom p))
  else p.

(** *** Event listeners *)

(** The [change] listener of the sort selector. *)
Definition sortOptionsChange (value : string) (p : Page) : Page :=
  handleSort (mkPage (set_currentSort value (globals p)) (dom p)).

(** The [change] listener of the page-size selector, with the parsed
    value. *)
Definition itemsPerPageChange (value : Z) (p : Page) : Page :=
  renderProducts
    (mkPage (set_currentPage 1 (set_itemsPerPage value (globals p))) (dom p)).

(** The body the debounced [input] listener runs once the timer fires. *)
Definition searchInput (value : string) (p : Page) : Page :=
  handleSearch value p.

(** ** Statements of the specification, as written *)

(** "When the trimmed, lowercased term is empty the view equals the full
    catalog in original order, and otherwise every product in the view
    has a title that contains the term case-insensitively; the view is
    never longer than the catalog." *)
Definition search_claim (t : string) (p : Page) : Prop :=
  let C := allProducts (globals p) in
  let view := filteredProducts (globals (handleSearch t p)) in
  (List.length view <= List.length C)%nat
  /\ (termOf t = "" -> view = C)
  /\ (termOf t <> "" ->
      Forall (fun product => matches (termOf t) product = true) view).

(** "totalPages = ceil(L / pageSize), with a minimum of 1 page even when
    L = 0": the least [n >= 1] with [L <= n * pageSize]. *)
Definition totalPages_claim (g : Globals) : Prop :=
  let L := Z.of_nat (List.length (filteredProducts g)) in
  let n := totalPagesOf g in
  1 <= n /\ L <= n * itemsPerPage g
  /\ (1 < n -> (n - 1) * itemsPerPage g < L).

(** "Whenever the sort key changes, the current page is reset to 1." *)
Definition sort_reset_claim (value : string) (p : Page) : Prop :=
  value <> currentSort (globals p) ->
  currentPage (globals (sortOptionsChange value p)) = 1.


(** ** Strings *)

Lemma startsWith_spec (s t : string) :
  startsWith s t = true <-> exists b, s = t ++ b.
Proof.
  revert s; induction t as [|c t IH]; intros s; simpl.
  - split; [intros _; now exists s | intros _; reflexivity].
  - destruct s as [|a s].
    + split; [discriminate | intros [b Hb]; discriminate].
    + rewrite andb_true_iff, Ascii.eqb_eq, IH. split.
      * intros [-> [b ->]]. now exists b.
      * intros [b Hb]. injection Hb as -> ->. split; [reflexivity | now exists b].
Qed.

(** [includes] is the substring test. *)
Lemma includes_spec (s t : string) :
  includes s t = true <-> exists a b, s = a ++ t ++ b.
Proof.
  split.
  - induction s as [|c s IH]; simpl; rewrite orb_true_iff.
    + intros [H|H]; [|discriminate].
      apply startsWith_spec in H as [b ->]. now exists "", b.
    + intros [H|H].
      * apply startsWith_spec in H as [b Hb]. now exists "", b.
      * destruct (IH H) as (a & b & ->). now exists (String c a), b.
  - intros (a & b & ->). induction a as [|c a IH]; simpl.
    + destruct (t ++ b) eqn:E; simpl; rewrite orb_true_iff; left;
        apply startsWith_spec; exists b; now rewrite E.
    + rewrite orb_true_iff. now right.
Qed.

Lemma truthy_true (s : string) : truthy s = true <-> s <> "".
Proof.
  unfold truthy. rewrite negb_true_iff. split.
  - intros H ->. discriminate.
  - intros H. now apply String.eqb_neq.
Qed.

(** ** Sorting *)

Section SortFacts.
Context {A : Type}.
Variable cmp : A -> A -> Z.

Lemma insert_perm (x : A) (l : list A) : Permutation (insert cmp x l) (x :: l).
Proof.
  induction l as [|y l IH]; simpl; [reflexivity|].
  destruct (cmp x y <=? 0); [reflexivity|].
  rewrite IH. apply perm_swap.
Qed.

Lemma sort_perm (l : list A) : Permutation (sort cmp l) l.
Proof.
  induction l as [|x l IH]; simpl; [reflexivity|].
  rewrite insert_perm. now constructor.
Qed.

Hypothesis cmp_total : forall x y, 0 < cmp x y -> cmp y x <= 0.
Hypothesis cmp_trans :
  forall x y z, cmp x y <= 0 -> cmp y z <= 0 -> cmp x z <= 0.

Lemma insert_sorted (x : A) (l : list A) :
  StronglySorted (ordered cmp) l -> StronglySorted (ordered cmp) (insert cmp x l).
Proof.
  induction l as [|y l IH]; simpl; intros Hs.
  - repeat constructor.
  - inversion Hs as [|? ? Hl Hy]; subst.
    destruct (Z.leb_spec (cmp x y) 0) as [Hle|Hgt].
    + constructor; [assumption|]. constructor; [exact Hle|].
      eapply Forall_impl; [|exact Hy]. intros z Hz. now apply (cmp_trans x y z).
    + constructor; [now apply IH|].
      eapply Permutation_Forall; [symmetry; apply insert_perm|].
      constructor; [now apply cmp_total | assumption].
Qed.

Lemma sort_sorted (l : list A) : StronglySorted (ordered cmp) (sort cmp l).
Proof.
  induction l as [|x l IH]; simpl; [constructor | now apply insert_sorted].
Qed.
End SortFacts.

Lemma sorted_perm (sortType : string) (l : list Product) :
  Permutation (sorted sortType l) l.
Proof.
  unfold sorted.
  repeat match goal with
         | |- context [String.eqb ?a ?b] => destruct (String.eqb a b)
         end; auto using sort_perm, Permutation_refl.
Qed.

Lemma sorted_none (l : list Product) : sorted "" l = l.
Proof. reflexivity. Qed.

(** ** Rendering leaves the globals alone *)

Lemma globals_renderProducts (p : Page) : globals (renderProducts p) = globals p.
Proof.
  unfold renderProducts.
  destruct (List.length (filteredProducts (globals p)) =? 0)%nat; reflexivity.
Qed.

Lemma globals_handleSearch (t : string) (p : Page) :
  globals (handleSearch t p) =
  set_currentPage 1
    (set_filteredProducts
       (sorted (currentSort (globals p)) (filtered t (allProducts (globals p))))
       (globals p)).
Proof.
  unfold handleSearch. rewrite globals_renderProducts. cbn.
  destruct (truthy (currentSort (globals p))) eqn:E; [reflexivity|].
  unfold truthy in E. apply negb_false_iff, String.eqb_eq in E.
  rewrite E. reflexivity.
Qed.

Lemma filtered_length (t : string) (all : list Product) :
  (List.length (filtered t all) <= List.length all)%nat.
Proof.
  unfold filtered. destruct (String.eqb (termOf t) ""); [lia|].
  induction all as [|x l IH]; simpl; [lia|].
  destruct (matches (termOf t) x); simpl; lia.
Qed.

(** ** Query engine: the view a search produces *)

(** C1 (amended).  After [handleSearch t] the view is never longer than
    the catalog.  When the trimmed, lowercased term is empty the view is
    the full catalog under the current sort key: a permutation of the
    catalog, and the catalog itself in its original order when no sort
    key is selected.  Otherwise the view holds exactly the products
    whose lowercased title contains the trimmed, lowercased term. *)
Theorem handleSearch_view (t : string) (p : Page) :
  let C := allProducts (globals p) in
  let key := currentSort (globals p) in
  let view := filteredProducts (globals (handleSearch t p)) in
  (List.length view <= List.length C)%nat
  /\ (termOf t = "" ->
      view = sorted key C /\ Permutation view C /\ (key = "" -> view = C))
  /\ (termOf t <> "" ->
      Forall (fun product =>
                exists a b, toLowerCase (title product) = a ++ termOf t ++ b)
             view
      /\ Permutation view (filter (matches (termOf t)) C)).
Proof.
  cbv zeta. rewrite globals_handleSearch. cbn [filteredProducts set_currentPage set_filteredProducts].
  split; [|split].
  - rewrite (Permutation_length (sorted_perm _ _)). apply filtered_length.
  - intros Hterm. unfold filtered. rewrite Hterm. cbn [String.eqb].
    split; [reflexivity|]. split; [apply sorted_perm|].
    intros ->. reflexivity.
  - intros Hterm. unfold filtered.
    apply String.eqb_neq in Hterm. rewrite Hterm.
    assert (HP := sorted_perm (currentSort (globals p))
                    (filter (matches (termOf t)) (allProducts (globals p)))).
    split; [|exact HP].
    eapply Permutation_Forall; [symmetry; exact HP|].
    apply Forall_forall. intros x Hx. apply filter_In in Hx as [_ Hx].
    now apply includes_spec.
Qed.

(** ** Paginator: the number of pages *)

Lemma ceilDiv_spec (a b : Z) :
  0 < b -> (ceilDiv a b - 1) * b < a <= ceilDiv a b * b.
Proof.
  intros Hb. unfold ceilDiv.
  pose proof (Z.div_mod (- a) b) as Hdm.
  pose proof (Z.mod_pos_bound (- a) b Hb) as Hm. nia.
Qed.

Lemma ceilDiv_unique (a b n : Z) :
  0 < b -> (n - 1) * b < a <= n * b -> n = ceilDiv a b.
Proof.
  intros Hb Hn. pose proof (ceilDiv_spec a b Hb). nia.
Qed.

(** C2 (amended).  For a positive page size the paginator's page count
    is the ceiling of [L / pageSize]: the one integer [n] with
    [(n - 1) * pageSize < L <= n * pageSize].  No minimum is applied: the
    count is 0 for the empty view and at least 1 otherwise. *)
Theorem totalPages_ceil (g : Globals) :
  0 < itemsPerPage g ->
  let L := Z.of_nat (List.length (filteredProducts g)) in
  let n := totalPagesOf g in
  (n - 1) * itemsPerPage g < L <= n * itemsPerPage g
  /\ (forall m, (m - 1) * itemsPerPage g < L <= m * itemsPerPage g -> m = n)
  /\ (L = 0 -> n = 0)
  /\ (0 < L -> 1 <= n).
Proof.
  intros Hps L n.
  assert (Hc : (n - 1) * itemsPerPage g < L <= n * itemsPerPage g)
    by (apply ceilDiv_spec; exact Hps).
  split; [exact Hc|]. split; [|split].
  - intros m Hm. now apply ceilDiv_unique.
  - intros HL. clearbody L n.
    assert (0 <= n) by nia. assert (n < 1) by nia. lia.
  - intros HL. clearbody L n. nia.
Qed.

(** ** Page reset *)

Lemma currentPage_handleSearch (t : string) (p : Page) :
  currentPage (globals (handleSearch t p)) = 1.
Proof. rewrite globals_handleSearch. reflexivity. Qed.

Lemma handleSort_selected (p : Page) :
  currentSort (globals p) <> "" ->
  globals (handleSort p) =
  set_currentPage 1 (applySorting (currentSort (globals p)) (globals p)).
Proof.
  intros H. apply truthy_true in H. unfold handleSort. rewrite H.
  now rewrite globals_renderProducts.
Qed.

Lemma handleSort_unselected (p : Page) :
  currentSort (globals p) = "" -> handleSort p = p.
Proof. intros H. unfold handleSort. now rewrite H. Qed.

(** C3 (amended).  A search resets the current page to 1, and so does
    selecting a sort key that is not the empty string (and a change of
    page size).  Selecting the empty sort key only stores it: the
    current page, the view and the rendered page are left as they were. *)
Theorem page_reset (p : Page) :
  (forall t, currentPage (globals (searchInput t p)) = 1)
  /\ (forall value, value <> "" ->
                    currentPage (globals (sortOptionsChange value p)) = 1)
  /\ (forall size, currentPage (globals (itemsPerPageChange size p)) = 1)
  /\ sortOptionsChange "" p = mkPage (set_currentSort "" (globals p)) (dom p).
Proof.
  repeat split.
  - intros t. apply currentPage_handleSearch.
  - intros value Hv. unfold sortOptionsChange.
    rewrite handleSort_selected by exact Hv. reflexivity.
  - intros size. unfold itemsPerPageChange.
    now rewrite globals_renderProducts.
Qed.

(** ** Page change *)

(** C4.  With a positive page size, a request for a page below 1 or
    above the page count returns at once: the globals (the current page
    among them) and every rendered node are what they were. *)
Theorem changePage_out_of_range (page : Z) (p : Page) :
  0 < itemsPerPage (globals p) ->
  page < 1 \/ totalPagesOf (globals p) < page ->
  changePage page p = p.
Proof.
  intros _ Hout. unfold changePage.
  destruct Hout as [H|H].
  - apply Z.ltb_lt in H. now rewrite H.
  - apply Z.gtb_lt in H. rewrite H. now rewrite orb_true_r.
Qed.

Lemma changePage_in_range (page : Z) (p : Page) :
  1 <= page <= totalPagesOf (globals p) ->
  currentPage (globals (changePage page p)) = page.
Proof.
  intros [H1 H2]. unfold changePage.
  replace (page <? 1) with false by (symmetry; apply Z.ltb_ge; lia).
  replace (page >? totalPagesOf (globals p)) with false
    by (symmetry; rewrite Z.gtb_ltb; apply Z.ltb_ge; lia).
  cbn. now rewrite globals_renderProducts.
Qed.

(** ** Paginator: the window of numbered links *)

Lemma range_In (a b x : Z) : In x (range a b) <-> a <= x <= b.
Proof.
  unfold range. rewrite in_map_iff. split.
  - intros (k & <- & Hk). apply in_seq in Hk. lia.
  - intros Hx. exists (Z.to_nat (x - a)). split; [lia|]. apply in_seq. lia.
Qed.

Lemma range_length (a b : Z) : List.length (range a b) = Z.to_nat (b - a + 1).
Proof. unfold range. now rewrite length_map, length_seq. Qed.

Lemma range_sorted (a b : Z) : StronglySorted Z.lt (range a b).
Proof.
  unfold range. generalize (Z.to_nat (b - a + 1)) as n. intros n.
  generalize 0%nat as k. induction n as [|n IH]; intros k; simpl.
  - constructor.
  - constructor; [apply IH|].
    apply Forall_forall. intros x Hx. apply in_map_iff in Hx as (j & <- & Hj).
    apply in_seq in Hj. lia.
Qed.

Lemma StronglySorted_app {A : Type} (R : A -> A -> Prop) (l1 l2 : list A) :
  StronglySorted R l1 -> StronglySorted R l2 ->
  (forall x y, In x l1 -> In y l2 -> R x y) ->
  StronglySorted R (l1 ++ l2).
Proof.
  induction l1 as [|x l1 IH]; simpl; intros H1 H2 H12; [assumption|].
  inversion H1 as [|? ? Hs Hf]; subst. constructor.
  - apply IH; auto.
  - apply Forall_app. split; [assumption|].
    apply Forall_forall. intros y Hy. apply H12; auto.
Qed.

Lemma linkPages_links (f : Z -> bool) (l : list Z) :
  linkPages (map (fun i => PageLink (f i) i) l) = l.
Proof. induction l as [|x l IH]; simpl; [reflexivity | now rewrite IH]. Qed.

Lemma pageWindow_bounds (current total : Z) :
  1 <= current <= total ->
  let '(startPage, endPage) := pageWindow current total in
  1 <= startPage <= current /\ current <= endPage <= total
  /\ endPage - startPage <= 4.
Proof.
  intros H. unfold pageWindow. cbv zeta.
  change (5 / 2) with 2.
  destruct (Z.ltb_spec
              (Z.min total (Z.max 1 (current - 2) + 5 - 1)
               - Z.max 1 (current - 2)) (5 - 1)); lia.
Qed.

(** The numbered links of the control: page 1 when the window starts
    after it, the window, the last page when the window ends before it. *)
Lemma linkPages_renderPagination (g : Globals) :
  1 < totalPagesOf g ->
  linkPages (renderPagination g) =
  (let '(startPage, endPage) := pageWindow (currentPage g) (totalPagesOf g) in
   (if startPage >? 1 then [1] else [])
     ++ range startPage endPage
     ++ (if endPage <? totalPagesOf g then [totalPagesOf g] else []))%list.
Proof.
  intros Htp. unfold renderPagination.
  replace (totalPagesOf g <=? 1) with false by (symmetry; apply Z.leb_gt; lia).
  destruct (pageWindow (currentPage g) (totalPagesOf g)) as [s e].
  unfold linkPages. cbn [flat_map app].
  rewrite !flat_map_app. fold (linkPages (map (fun i => PageLink (i =? currentPage g) i) (range s e))).
  rewrite linkPages_links.
  destruct (s >? 1), (s >? 2), (e <? totalPagesOf g), (e <? totalPagesOf g - 1);
    cbn; rewrite ?app_nil_r; reflexivity.
Qed.

(** C7.  With a positive page size, more than one page and the current
    page within [1, totalPages], the numbered links of the pagination
    control are an optional link to page 1, a window of at most 5
    consecutive page numbers that contains the current page, and an
    optional link to the last page; all of them lie in [1, totalPages]
    and they are listed in strictly increasing order. *)
Theorem pagination_window (g : Globals) :
  0 < itemsPerPage g ->
  1 < totalPagesOf g ->
  1 <= currentPage g <= totalPagesOf g ->
  exists first window last,
    linkPages (renderPagination g) = (first ++ window ++ last)%list
    /\ (first = [] \/ first = [1])
    /\ (last = [] \/ last = [totalPagesOf g])
    /\ In (currentPage g) window
    /\ (List.length window <= 5)%nat
    /\ Forall (fun n => 1 <= n <= totalPagesOf g) (linkPages (renderPagination g))
    /\ StronglySorted Z.lt (linkPages (renderPagination g)).
Proof.
  intros _ Htp Hcp.
  rewrite (linkPages_renderPagination g Htp).
  pose proof (pageWindow_bounds _ _ Hcp) as Hw.
  destruct (pageWindow (currentPage g) (totalPagesOf g)) as [s e].
  destruct Hw as (Hs & He & Hlen).
  exists (if s >? 1 then [1] else []), (range s e),
         (if e <? totalPagesOf g then [totalPagesOf g] else []).
  split; [reflexivity|].
  split; [destruct (s >? 1); auto|].
  split; [destruct (e <? totalPagesOf g); auto|].
  split; [apply range_In; lia|].
  split; [rewrite range_length; lia|].
  split.
  - apply Forall_app. split; [destruct (s >? 1); repeat constructor; lia|].
    apply Forall_app. split.
    + apply Forall_forall. intros x Hx. apply range_In in Hx. lia.
    + destruct (e <? totalPagesOf g); repeat constructor; lia.
  - apply StronglySorted_app.
    + destruct (s >? 1); repeat constructor.
    + apply StronglySorted_app; [apply range_sorted| |].
      * destruct (e <? totalPagesOf g); repeat constructor.
      * intros x y Hx Hy. apply range_In in Hx.
        destruct (Z.ltb_spec e (totalPagesOf g)); [|contradiction].
        destruct Hy as [<-|[]]. lia.
    + intros x y Hx Hy.
      destruct (Z.gtb_spec s 1); [|contradiction].
      destruct Hx as [<-|[]].
      apply in_app_iff in Hy as [Hy|Hy].
      * apply range_In in Hy. lia.
      * destruct (e <? totalPagesOf g); [|contradiction].
        destruct Hy as [<-|[]]. lia.
Qed.

(** ** Image resolver: the fallback chain *)

Lemma handleImageError_failed (img : Image) (url : string) :
  image_error img = true -> handleImageError img url = img.
Proof. intros H. unfold handleImageError. now rewrite H. Qed.

Lemma failures_failed (n : nat) (img : Image) :
  image_error img = true -> failures n img = img.
Proof.
  intros H. induction n as [|n IH]; simpl; [reflexivity|].
  unfold onerror. now rewrite handleImageError_failed.
Qed.

Lemma attemptIndex_handleImageError (img : Image) (url : string) :
  attemptIndex img <= attemptIndex (handleImageError img url).
Proof.
  unfold handleImageError, attemptIndex.
  destruct (image_error img); [lia|].
  destruct (wrapper img) as [w|] eqn:Ew.
  - destruct (attemptOf w + 1 <? _); cbn; unfold attemptOf; cbn;
      destruct (data_attempt w); lia.
  - destruct (category_image img); cbn; rewrite ?Ew; lia.
Qed.

Lemma attemptIndex_failures (n : nat) (img : Image) :
  attemptIndex img <= attemptIndex (failures n img).
Proof.
  revert img. induction n as [|n IH]; intros img; simpl; [lia|].
  etransitivity; [|apply IH]. apply attemptIndex_handleImageError.
Qed.

(** C5.  For an image element with a wrapper (the elements the
    candidate list is kept for): when a failure event finds the list
    exhausted, the element is marked failed and its wrapper shows the
    placeholder.  For every image element: once it is marked failed, a
    failure event, and any number of them, leaves it exactly as it is;
    and the recorded attempt index never decreases over failure events. *)
Theorem image_failure_terminal (img : Image) (url : string) :
  (forall w,
      image_error img = false -> wrapper img = Some w ->
      Z.of_nat (List.length (fallbackStrategies url)) <= attemptOf w + 1 ->
      image_error (handleImageError img url) = true
      /\ shows_placeholder (handleImageError img url) = true
      /\ attemptIndex (handleImageError img url) = attemptIndex img)
  /\ (image_error img = true ->
      handleImageError img url = img /\ forall n, failures n img = img)
  /\ attemptIndex img <= attemptIndex (handleImageError img url)
  /\ (forall n, attemptIndex img <= attemptIndex (failures n img)).
Proof.
  split; [|split; [|split]].
  - intros w Herr Hw Hex. unfold handleImageError, shows_placeholder, attemptIndex.
    rewrite Herr, Hw.
    replace (attemptOf w + 1 <? _) with false by (symmetry; apply Z.ltb_ge; exact Hex).
    cbn. auto.
  - intros H. split; [now apply handleImageError_failed|].
    intros n. now apply failures_failed.
  - apply attemptIndex_handleImageError.
  - intros n. apply attemptIndex_failures.
Qed.

(** The run of a freshly rendered product image: the first three failure
    events walk the candidates 1, 2 and 3, the fourth installs the
    placeholder, and nothing changes afterwards. *)
Lemma productImage_run (productId index : Z) (cleanImg : string) :
  let img := productImage productId index cleanImg in
  map (fun n => src (failures n img)) [1; 2; 3]%nat
    = [proxyA cleanImg; proxyB cleanImg; corsRelay cleanImg]
  /\ map (fun n => attemptIndex (failures n img)) [0; 1; 2; 3; 4]%nat
     = [0; 1; 2; 3; 3]
  /\ map (fun n => image_error (failures n img)) [0; 1; 2; 3; 4]%nat
     = [false; false; false; false; true]
  /\ shows_placeholder (failures 4 img) = true
  /\ forall n, failures (4 + n) img = failures 4 img.
Proof.
  cbv zeta. repeat split.
  intros n. change (failures (4 + n) ?i) with (failures n (failures 4 i)).
  now apply failures_failed.
Qed.

(** ** Image resolver: the initial choice *)

Lemma toInt32_range (z : Z) : - 2 ^ 31 <= toInt32 z < 2 ^ 31.
Proof.
  unfold toInt32.
  pose proof (Z.mod_pos_bound (z + 2 ^ 31) (2 ^ 32) eq_refl). lia.
Qed.

Lemma charCode_range (c : ascii) : 0 <= charCode c < 256.
Proof. unfold charCode. pose proof (nat_ascii_bounded c). lia. Qed.

Lemma hashStep_bound (a : Z) (b : ascii) :
  Z.abs (hashStep a b) <= Z.abs a + (2 ^ 31 + 255).
Proof.
  unfold hashStep, shl.
  pose proof (toInt32_range (Z.shiftl (toInt32 a) (Z.land 5 31))).
  pose proof (charCode_range b). lia.
Qed.

(** The accumulator of the hash is only wrapped inside [<<]; the
    subtraction and the addition are ordinary number arithmetic.  It
    therefore grows, but by less than 2^31 + 256 per character, so that
    for any URL shorter than 2^21 characters every intermediate value is
    below 2^53 and the integer arithmetic of the model is the arithmetic
    of the script's numbers. *)
Lemma hash_bound (url : string) :
  Z.abs (hash url) <= Z.of_nat (String.length url) * (2 ^ 31 + 255).
Proof.
  unfold hash.
  assert (H : forall l a,
             Z.abs (fold_left hashStep l a)
             <= Z.abs a + Z.of_nat (List.length l) * (2 ^ 31 + 255)).
  { induction l as [|c l IH]; intros a; simpl fold_left.
    - simpl. lia.
    - specialize (IH (hashStep a c)). pose proof (hashStep_bound a c).
      change (List.length (c :: l)) with (S (List.length l)). lia. }
  specialize (H (list_ascii_of_string url) 0).
  replace (List.length (list_ascii_of_string url)) with (String.length url) in H.
  - simpl Z.abs in H. lia.
  - clear H. induction url as [|c s IH]; simpl; [reflexivity | now rewrite IH].
Qed.

Lemma jsRem_abs_3 (h : Z) : 0 <= jsRem (Z.abs h) 3 < 3.
Proof.
  unfold jsRem. pose proof (Z.abs_nonneg h).
  rewrite Z.rem_mod_nonneg by lia. apply Z.mod_pos_bound. lia.
Qed.

Lemma getImageWithStrategies_index (url : string) :
  at_index (initialStrategies url) (strategyIndex url)
  = Some (getImageWithStrategies url).
Proof.
  unfold getImageWithStrategies, strategyIndex.
  destruct url as [|c s]; [reflexivity|].
  change (truthy (String c s)) with true. cbn [negb].
  change (Z.of_nat (List.length (initialStrategies (String c s)))) with 3.
  pose proof (jsRem_abs_3 (hash (String c s))) as Hi.
  set (i := jsRem (Z.abs (hash (String c s))) 3) in *.
  assert (Hcases : i = 0 \/ i = 1 \/ i = 2) by lia.
  destruct Hcases as [-> | [-> | ->]]; reflexivity.
Qed.

Lemma getImageWithStrategies_In (url : string) :
  In (getImageWithStrategies url) (initialStrategies url).
Proof.
  pose proof (getImageWithStrategies_index url) as H.
  unfold at_index in H. destruct (strategyIndex url <? 0); [discriminate|].
  apply nth_error_In in H. exact H.
Qed.

(** C6.  The initial URL is a function of the original URL alone: two
    calls on the same URL (and more generally on URLs with the same
    hash index) return the same candidate position, and the result is
    always one of the first three strategies, at the index the hash
    selects. *)
Theorem initial_strategy_deterministic (u v : string) :
  u = v ->
  getImageWithStrategies u = getImageWithStrategies v
  /\ strategyIndex u = strategyIndex v
  /\ 0 <= strategyIndex u < 3
  /\ at_index (initialStrategies u) (strategyIndex u)
     = Some (getImageWithStrategies u)
  /\ In (getImageWithStrategies u) [direct u; proxyA u; proxyB u].
Proof.
  intros <-. split; [reflexivity|]. split; [reflexivity|].
  split; [apply jsRem_abs_3|].
  split; [apply getImageWithStrategies_index|].
  apply getImageWithStrategies_In.
Qed.

(** ** Query engine: ascending against descending price *)

Section StrictOrder.
Context {A : Type}.
Variable R : A -> A -> Prop.
Hypothesis R_irrefl : forall x, ~ R x x.
Hypothesis R_trans : forall x y z, R x y -> R y z -> R x z.

(** Two arrangements of the same elements that are both strictly
    ordered are the same list. *)
Lemma strictly_sorted_unique (l1 l2 : list A) :
  Permutation l1 l2 -> StronglySorted R l1 -> StronglySorted R l2 -> l1 = l2.
Proof.
  revert l2. induction l1 as [|x l1 IH]; intros l2 HP H1 H2.
  - apply Permutation_nil in HP. now subst.
  - destruct l2 as [|y l2].
    + symmetry in HP. apply Permutation_nil in HP. discriminate.
    + inversion H1 as [|? ? Hs1 Hf1]; inversion H2 as [|? ? Hs2 Hf2]; subst.
      assert (Hxy : x = y).
      { assert (Hx : In x (y :: l2))
          by (eapply Permutation_in; [exact HP | now left]).
        assert (Hy : In y (x :: l1))
          by (eapply Permutation_in; [symmetry; exact HP | now left]).
        destruct Hx as [Hx|Hx]; [now symmetry|].
        destruct Hy as [Hy|Hy]; [assumption|].
        rewrite Forall_forall in Hf1, Hf2.
        exfalso. apply (R_irrefl x). eauto. }
      subst y. f_equal. apply IH; auto.
      now apply Permutation_cons_inv in HP.
Qed.

Lemma StronglySorted_rev (l : list A) :
  StronglySorted R l -> StronglySorted (fun x y => R y x) (rev l).
Proof.
  induction 1 as [|x l Hs IH Hf]; simpl; [constructor|].
  apply StronglySorted_app; [assumption | repeat constructor|].
  intros a b Ha [<-|[]]. apply in_rev in Ha.
  rewrite Forall_forall in Hf. auto.
Qed.
End StrictOrder.

(** With distinct prices, an order that holds between two products can
    be sharpened to any order that only needs their prices to differ. *)
Lemma distinct_prices_sharpen (R S : Product -> Product -> Prop)
      (l : list Product) :
  (forall a b, R a b -> price a <> price b -> S a b) ->
  NoDup (map price l) -> StronglySorted R l -> StronglySorted S l.
Proof.
  intros HR Hnd Hs. induction Hs as [|x l Hs IH Hf]; [constructor|].
  simpl in Hnd. inversion Hnd as [|? ? Hnotin Hnd']; subst.
  constructor; [now apply IH|].
  rewrite Forall_forall in *. intros y Hy.
  apply HR; [now apply Hf|].
  intros Heq. apply Hnotin. rewrite Heq. now apply in_map.
Qed.

Lemma distinct_prices_perm (l l' : list Product) :
  Permutation l' l -> NoDup (map price l) -> NoDup (map price l').
Proof.
  intros HP Hnd. eapply Permutation_NoDup; [|exact Hnd].
  apply Permutation_map. now symmetry.
Qed.

(** Whatever algorithm the engine sorts with: when the prices of a view
    are pairwise distinct, any arrangement of it that the descending
    comparator accepts is the reverse of any arrangement the ascending
    comparator accepts. *)
Lemma price_orders_reverse (view asc desc : list Product) :
  NoDup (map price view) ->
  Permutation asc view -> StronglySorted (ordered byPriceAsc) asc ->
  Permutation desc view -> StronglySorted (ordered byPriceDesc) desc ->
  desc = rev asc.
Proof.
  intros Hnd Pasc Sasc Pdesc Sdesc.
  apply (strictly_sorted_unique (fun a b => cheaper b a)).
  - unfold cheaper. intros x. lia.
  - unfold cheaper. intros x y z. lia.
  - rewrite Pdesc, <- Permutation_rev. now symmetry.
  - apply (distinct_prices_sharpen (ordered byPriceDesc)); [| |exact Sdesc].
    + unfold ordered, byPriceDesc, cheaper. intros a b H1 H2. lia.
    + now apply (distinct_prices_perm view).
  - apply StronglySorted_rev.
    apply (distinct_prices_sharpen (ordered byPriceAsc)); [| |exact Sasc].
    + unfold ordered, byPriceAsc, cheaper. intros a b H1 H2. lia.
    + now apply (distinct_prices_perm view).
Qed.

Lemma byPriceAsc_sorted (l : list Product) :
  StronglySorted (ordered byPriceAsc) (sort byPriceAsc l).
Proof. apply sort_sorted; unfold byPriceAsc; intros; lia. Qed.

Lemma byPriceDesc_sorted (l : list Product) :
  StronglySorted (ordered byPriceDesc) (sort byPriceDesc l).
Proof. apply sort_sorted; unfold byPriceDesc; intros; lia. Qed.

(** C8.  For a view whose prices are pairwise distinct, sorting it by
    descending price gives exactly the reverse of sorting it by
    ascending price, whether the descending sort starts from the view as
    it was or, as the script sorts in place, from the ascending result. *)
Theorem price_sorts_reverse (view : list Product) :
  NoDup (map price view) ->
  sorted "price-desc" view = rev (sorted "price-asc" view)
  /\ sorted "price-desc" (sorted "price-asc" view)
     = rev (sorted "price-asc" view).
Proof.
  intros Hnd.
  change (sorted "price-asc" view) with (sort byPriceAsc view).
  change (sorted "price-desc") with (sort byPriceDesc).
  split; apply (price_orders_reverse view); auto using byPriceAsc_sorted,
    byPriceDesc_sorted, sort_perm.
  rewrite sort_perm. apply sort_perm.
Qed.

(** ** Image resolver: category images *)





Lemma markup_element (img img' : Image) :
  markup img = Element img' ->
  img' = img /\ inlineSafe (onerror_url img) = true.
Proof.
  unfold markup. destruct (inlineSafe (onerror_url img)); [|discriminate].
  intros H. injection H as <-. auto.
Qed.


(** ** Image resolver: the first failure of a product image *)

Lemma mapi_In {A B : Type} (f : A -> Z -> B) (l : list A) (i : Z) (y : B) :
  In y (mapi f l i) -> exists x j, In x l /\ y = f x j.
Proof.
  revert i. induction l as [|x l IH]; intros i; simpl; [intros []|].
  intros [<-|H].
  - exists x, i. auto.
  - destruct (IH _ H) as (x' & j & Hx' & ->). exists x', j. auto.
Qed.

Lemma productImage_first_failure (productId index : Z) (cleanImg : string) :
  let img := productImage productId index cleanImg in
  attemptIndex img = 0
  /\ In (src img) (initialStrategies (onerror_url img))
  /\ src (onerror img) = proxyA (onerror_url img)
  /\ at_index (fallbackStrategies (onerror_url img)) 1 = Some (src (onerror img))
  /\ attemptIndex (onerror img) = 1.
Proof.
  cbv zeta. split; [reflexivity|]. split; [|repeat split].
  apply getImageWithStrategies_In.
Qed.

(** The behaviour C10 describes, where the markup is intact.  Every
    product image element of a rendered row has a handler URL that the
    quoting leaves intact, starts with attempt index 0 and a source the
    hash chose among the three initial strategies; whichever of them that
    is, its first load-failure event sets the source to the
    proxy-variant-A candidate, entry 1 of the fallback list, and records
    attempt index 1. *)
Theorem first_failure_uses_proxyA (product : Product) (img : Image) :
  In (Element img) (row_images (createProductRow product)) ->
  inlineSafe (onerror_url img) = true
  /\ attemptIndex img = 0
  /\ In (src img) (initialStrategies (onerror_url img))
  /\ src (onerror img) = proxyA (onerror_url img)
  /\ at_index (fallbackStrategies (onerror_url img)) 1 = Some (src (onerror img))
  /\ attemptIndex (onerror img) = 1.
Proof.
  unfold createProductRow. cbn [row_images]. intros Himg.
  apply mapi_In in Himg as (raw & index & _ & Hmarkup).
  symmetry in Hmarkup. apply markup_element in Hmarkup as [-> Hsafe].
  split; [exact Hsafe | apply productImage_first_failure].
Qed.


(** * Further properties of the script *)

(** ** Paginator: the pages of a view *)

(** The slice [renderProducts] takes for the current page. *)
Definition productsToShow (g : Globals) : list Product :=
  let startIndex := (currentPage g - 1) * itemsPerPage g in
  let endIndex := startIndex + itemsPerPage g in
  slice (filteredProducts g) startIndex endIndex.

Lemma slice_from (A : Type) (l : list A) (first count : Z) :
  0 <= first -> 0 <= count ->
  slice l first (first + count)
  = firstn (Z.to_nat count) (skipn (Z.to_nat first) l).
Proof.
  intros Hf Hc. unfold slice, relIndex.
  replace (first <? 0) with false by (symmetry; apply Z.ltb_ge; lia).
  replace (first + count <? 0) with false by (symmetry; apply Z.ltb_ge; lia).
  destruct (Z.le_gt_cases (Z.of_nat (List.length l)) first) as [Hlen|Hlen].
  - rewrite (skipn_all2 l (n := Z.to_nat first)) by lia.
    rewrite firstn_nil.
    replace (Z.min (first + count) (Z.of_nat (List.length l))
             - Z.min first (Z.of_nat (List.length l))) with 0 by lia.
    reflexivity.
  - replace (Z.min first (Z.of_nat (List.length l))) with first by lia.
    destruct (Z.le_gt_cases (first + count) (Z.of_nat (List.length l))) as [H|H].
    + f_equal. lia.
    + rewrite !firstn_all2; [reflexivity | |]; rewrite length_skipn; lia.
Qed.

Lemma chunks_concat (A : Type) (size n : nat) (l : list A) :
  (0 < size)%nat -> (List.length l <= n * size)%nat ->
  List.concat (map (fun k => firstn size (skipn (k * size) l)) (seq 0 n)) = l.
Proof.
  intros Hsize. revert l. induction n as [|n IH]; intros l Hl.
  - destruct l; [reflexivity | simpl in Hl; lia].
  - cbn [seq map List.concat]. rewrite <- seq_shift, map_map.
    transitivity (firstn size l ++ skipn size l)%list; [|apply firstn_skipn].
    f_equal.
    rewrite <- (IH (skipn size l)) by (rewrite length_skipn; lia).
    f_equal. apply map_ext. intros k. rewrite skipn_skipn.
    replace (S k * size)%nat with (k * size + size)%nat by lia. reflexivity.
Qed.

Lemma productsToShow_chunk (g : Globals) (k : nat) :
  0 < itemsPerPage g ->
  productsToShow (set_currentPage (1 + Z.of_nat k) g)
  = firstn (Z.to_nat (itemsPerPage g))
           (skipn (k * Z.to_nat (itemsPerPage g)) (filteredProducts g)).
Proof.
  intros Hps. unfold productsToShow, set_currentPage.
  cbn [currentPage itemsPerPage filteredProducts].
  replace (1 + Z.of_nat k - 1) with (Z.of_nat k) by lia.
  rewrite slice_from by nia. do 2 f_equal. nia.
Qed.

(** X1.  With a positive page size, the slices shown for pages 1 to
    [totalPages], put one after the other, are the view: every product of
    the view is on exactly one page, in view order; and each of these
    pages holds at least one and at most [itemsPerPage] products. *)
Theorem pages_partition_view (g : Globals) :
  0 < itemsPerPage g ->
  List.concat (map (fun page => productsToShow (set_currentPage page g))
              (range 1 (totalPagesOf g)))
  = filteredProducts g
  /\ forall page, 1 <= page <= totalPagesOf g ->
       1 <= Z.of_nat (List.length (productsToShow (set_currentPage page g)))
         <= itemsPerPage g.
Proof.
  intros Hps.
  pose proof (ceilDiv_spec (Z.of_nat (List.length (filteredProducts g)))
                           (itemsPerPage g) Hps) as Hc.
  fold (totalPagesOf g) in Hc. split.
  - unfold range. rewrite map_map.
    rewrite (map_ext _ _ (fun k => productsToShow_chunk g k Hps)).
    apply chunks_concat; [lia|].
    replace (totalPagesOf g - 1 + 1) with (totalPagesOf g) by lia. nia.
  - intros page Hpage.
    replace page with (1 + Z.of_nat (Z.to_nat (page - 1))) by lia.
    rewrite productsToShow_chunk by exact Hps.
    rewrite length_firstn, length_skipn. nia.
Qed.


(** ** Renderer: what a render writes *)

Lemma row_product_createProductRow (l : list Product) :
  map row_product (map createProductRow l) = l.
Proof. rewrite map_map. cbn. apply map_id. Qed.

Lemma length_zero_nil (A : Type) (l : list A) :
  (List.length l =? 0)%nat = true <-> l = [].
Proof.
  rewrite Nat.eqb_eq. split; [apply length_zero_iff_nil | now intros ->].
Qed.

Lemma renderProducts_empty (p : Page) :
  filteredProducts (globals p) = [] ->
  renderProducts p = mkPage (globals p) (showNoResults true (dom p)).
Proof. intros H. unfold renderProducts. now rewrite H. Qed.

Lemma renderProducts_rows (p : Page) :
  filteredProducts (globals p) <> [] ->
  renderProducts p
  = mkPage (globals p)
      (mkDom (map createProductRow (productsToShow (globals p)))
             (renderPagination (globals p))
             (Some (updatePageInfo (globals p)))
             false true (scrolls (dom p))).
Proof.
  intros H. unfold renderProducts.
  destruct (List.length (filteredProducts (globals p)) =? 0)%nat eqn:E;
    [now apply length_zero_nil in E | reflexivity].
Qed.

Lemma renderProducts_idempotent (p : Page) :
  renderProducts (renderProducts p) = renderProducts p.
Proof.
  destruct (filteredProducts (globals p)) as [|x l] eqn:E.
  - rewrite (renderProducts_empty p E).
    rewrite renderProducts_empty by exact E. reflexivity.
  - assert (H : filteredProducts (globals p) <> []) by (rewrite E; discriminate).
    rewrite (renderProducts_rows p H).
    rewrite renderProducts_rows by exact H. reflexivity.
Qed.

(** X2.  With a positive page size and the current page within
    [1, totalPages], a render shows the table (not the no-results block)
    with the rows of the products at positions [start .. end] of the view
    (counted from 1), where (start, end, total) is the page info written
    next to it: start is [(currentPage - 1) * itemsPerPage + 1], total is
    the length of the view, and 1 <= start <= end <= total. *)
Theorem rendered_page_matches_info (p : Page) :
  0 < itemsPerPage (globals p) ->
  1 <= currentPage (globals p) <= totalPagesOf (globals p) ->
  let g := globals p in
  let d := dom (renderProducts p) in
  exists info,
    pageInfo d = Some info
    /\ info_start info = (currentPage g - 1) * itemsPerPage g + 1
    /\ info_total info = Z.of_nat (List.length (filteredProducts g))
    /\ 1 <= info_start info <= info_end info
    /\ info_end info <= info_total info
    /\ map row_product (productTableBody d)
       = firstn (Z.to_nat (info_end info - info_start info + 1))
                (skipn (Z.to_nat (info_start info - 1)) (filteredProducts g))
    /\ Z.of_nat (List.length (productTableBody d))
       = info_end info - info_start info + 1
    /\ noResults_shown d = false
    /\ tableContainer_shown d = true.
Proof.
  intros Hps Hcp. cbv zeta. set (g := globals p) in *.
  pose proof (ceilDiv_spec (Z.of_nat (List.length (filteredProducts g)))
                           (itemsPerPage g) Hps) as Hc.
  fold (totalPagesOf g) in Hc.
  assert (Hne : filteredProducts g <> [])
    by (intros E; rewrite E in Hc; simpl in Hc; nia).
  rewrite (renderProducts_rows p Hne). cbn [dom pageInfo
    productTableBody noResults_shown tableContainer_shown]. fold g.
  exists (updatePageInfo g). unfold updatePageInfo.
  cbn [info_start info_end info_total].
  assert (Hrows : productsToShow g
                  = firstn (Z.to_nat (Z.min (currentPage g * itemsPerPage g)
                                        (Z.of_nat (List.length (filteredProducts g)))
                                      - ((currentPage g - 1) * itemsPerPage g + 1)
                                      + 1))
                           (skipn (Z.to_nat ((currentPage g - 1) * itemsPerPage g
                                             + 1 - 1))
                                  (filteredProducts g))).
  { unfold productsToShow. cbv zeta. rewrite slice_from by nia.
    replace ((currentPage g - 1) * itemsPerPage g + 1 - 1)
      with ((currentPage g - 1) * itemsPerPage g) by lia.
    destruct (Z.le_gt_cases (currentPage g * itemsPerPage g)
                (Z.of_nat (List.length (filteredProducts g)))) as [H|H].
    - f_equal. nia.
    - rewrite !firstn_all2; [reflexivity | |]; rewrite length_skipn; nia. }
  repeat split; try nia.
  - rewrite row_product_createProductRow. exact Hrows.
  - rewrite length_map, Hrows, length_firstn, length_skipn. nia.
Qed.

(** ** Query engine: how searches compose *)

(** The globals [handleSearch] leaves behind. *)
Definition searchGlobals (searchTerm : string) (g : Globals) : Globals :=
  set_currentPage 1
    (set_filteredProducts
       (sorted (currentSort g) (filtered searchTerm (allProducts g))) g).

Lemma handleSearch_render (t : string) (p : Page) :
  handleSearch t p = renderProducts (mkPage (searchGlobals t (globals p)) (dom p)).
Proof.
  unfold handleSearch, searchGlobals. f_equal. f_equal. cbn.
  destruct (truthy (currentSort (globals p))) eqn:E; [reflexivity|].
  unfold truthy in E. apply negb_false_iff, String.eqb_eq in E.
  rewrite E. reflexivity.
Qed.

Lemma filter_none (A : Type) (f : A -> bool) (l : list A) :
  (forall x, In x l -> f x = false) -> filter f l = [].
Proof.
  induction l as [|x l IH]; intros H; simpl; [reflexivity|].
  rewrite (H x) by now left. apply IH. intros y Hy. apply H. now right.
Qed.

(** X3.  A search whose trimmed, lowercased term is not empty and occurs
    in no title empties the view, selects page 1, shows the no-results
    block and hides the table; the rows, the pagination links and the
    page info rendered before stay in the document as they were. *)
Theorem search_without_match (t : string) (p : Page) :
  termOf t <> "" ->
  (forall product, In product (allProducts (globals p)) ->
                   includes (toLowerCase (title product)) (termOf t) = false) ->
  handleSearch t p
  = mkPage (set_currentPage 1 (set_filteredProducts [] (globals p)))
           (mkDom (productTableBody (dom p)) (pagination (dom p))
                  (pageInfo (dom p)) true false (scrolls (dom p))).
Proof.
  intros Hterm Hnone. rewrite handleSearch_render.
  assert (Hf : filtered t (allProducts (globals p)) = []).
  { unfold filtered. apply String.eqb_neq in Hterm. rewrite Hterm.
    apply filter_none. exact Hnone. }
  assert (Hs : sorted (currentSort (globals p)) [] = []).
  { unfold sorted.
    repeat match goal with
           | |- context [String.eqb ?a ?b] => destruct (String.eqb a b)
           end; reflexivity. }
  unfold searchGlobals. rewrite Hf, Hs.
  rewrite renderProducts_empty by reflexivity. reflexivity.
Qed.

(** X4.  Searches do not accumulate: a search always filters the full
    catalog, so after any earlier search the globals are those the new
    search alone would give; and repeating a search changes nothing at
    all, in the globals or in the document. *)
Theorem searches_compose (t1 t2 : string) (p : Page) :
  globals (handleSearch t2 (handleSearch t1 p)) = globals (handleSearch t2 p)
  /\ handleSearch t1 (handleSearch t1 p) = handleSearch t1 p.
Proof.
  assert (Hg : forall t, globals (handleSearch t p) = searchGlobals t (globals p))
    by (intros t; rewrite handleSearch_render; apply globals_renderProducts).
  assert (Hre : forall t' t, searchGlobals t' (searchGlobals t (globals p))
                             = searchGlobals t' (globals p)) by reflexivity.
  split.
  - rewrite (handleSearch_render t2 (handleSearch t1 p)).
    rewrite globals_renderProducts, !Hg. apply Hre.
  - rewrite (handleSearch_render t1 (handleSearch t1 p)), Hg, Hre.
    rewrite (handleSearch_render t1 p) at 1.
    rewrite handleSearch_render.
    set (q := mkPage (searchGlobals t1 (globals p)) (dom p)).
    transitivity (renderProducts (renderProducts q));
      [|apply renderProducts_idempotent].
    f_equal. destruct (renderProducts q) as [g' d'] eqn:E.
    cbn [dom]. f_equal.
    change g' with (globals (mkPage g' d')). rewrite <- E.
    now rewrite globals_renderProducts.
Qed.


(** ** The page under any sequence of user events *)

(** What the listeners and the pagination links can do to the page: the
    debounced search, a change of the sort selector, a change of the
    page-size selector, a click on a pagination item. *)
Inductive Event : Type :=
| Search (value : string)
| SortChange (value : string)
| PageSizeChange (value : Z)
| GoToPage (page : Z).

Definition step (p : Page) (e : Event) : Page :=
  match e with
  | Search value => searchInput value p
  | SortChange value => sortOptionsChange value p
  | PageSizeChange value => itemsPerPageChange value p
  | GoToPage page => changePage page p
  end.

Definition run (events : list Event) (p : Page) : Page :=
  fold_left step events p.

(** The page-size selector only offers positive sizes. *)
Definition offered (e : Event) : Prop :=
  match e with
  | PageSizeChange value => 0 < value
  | _ => True
  end.

(** The state the globals are kept in: a positive page size; a current
    page that is 1 or lies within [1, totalPages]; a view that is a
    reordering of some selection of the catalog. *)
Definition consistent (g : Globals) : Prop :=
  0 < itemsPerPage g
  /\ 1 <= currentPage g
  /\ (currentPage g = 1 \/ currentPage g <= totalPagesOf g)
  /\ exists keep, Permutation (filteredProducts g) (filter keep (allProducts g)).

Lemma filter_all (A : Type) (l : list A) : filter (fun _ => true) l = l.
Proof. induction l as [|x l IH]; simpl; [reflexivity | now rewrite IH]. Qed.

Lemma filtered_selection (t : string) (all : list Product) :
  exists keep, filtered t all = filter keep all.
Proof.
  unfold filtered. destruct (String.eqb (termOf t) "").
  - exists (fun _ => true). now rewrite filter_all.
  - now exists (matches (termOf t)).
Qed.

Lemma step_consistent (e : Event) (p : Page) :
  offered e -> consistent (globals p) ->
  consistent (globals (step p e))
  /\ allProducts (globals (step p e)) = allProducts (globals p).
Proof.
  intros He (Hps & Hcp1 & Hcp2 & keep & Hview).
  destruct e as [value|value|value|page]; cbn [step offered] in *.
  - unfold searchInput. rewrite handleSearch_render, globals_renderProducts.
    split; [|reflexivity]. unfold consistent, searchGlobals. cbn.
    repeat split; auto; try lia.
    destruct (filtered_selection value (allProducts (globals p))) as [k ->].
    exists k. apply sorted_perm.
  - unfold sortOptionsChange.
    destruct (String.eqb value "") eqn:E.
    + apply String.eqb_eq in E. subst value.
      rewrite handleSort_unselected by reflexivity.
      split; [|reflexivity]. unfold consistent. cbn.
      repeat split; auto. now exists keep.
    + apply String.eqb_neq in E.
      rewrite handleSort_selected by exact E.
      split; [|reflexivity]. unfold consistent. cbn.
      repeat split; auto; try lia.
      exists keep. rewrite sorted_perm. exact Hview.
  - unfold itemsPerPageChange. rewrite globals_renderProducts.
    split; [|reflexivity]. unfold consistent. cbn.
    repeat split; auto; try lia. now exists keep.
  - unfold changePage.
    destruct ((page <? 1) || (page >? totalPagesOf (globals p))) eqn:E.
    + split; [|reflexivity]. unfold consistent. repeat split; auto.
      now exists keep.
    + apply orb_false_iff in E as [E1 E2].
      apply Z.ltb_ge in E1. rewrite Z.gtb_ltb in E2. apply Z.ltb_ge in E2.
      cbn [globals]. rewrite globals_renderProducts. cbn [globals].
      split; [|reflexivity]. unfold consistent. cbn.
      repeat split; auto. now exists keep.
Qed.

(** X5.  From a consistent page, whatever the user does (searches, sort
    changes, changes to an offered page size, clicks on pagination items,
    in any order and number), the catalog is never modified, the view
    stays a reordering of a selection of the catalog, the page size stays
    positive, and the current page stays 1 or within [1, totalPages]. *)
Theorem run_consistent (events : list Event) (p : Page) :
  Forall offered events -> consistent (globals p) ->
  consistent (globals (run events p))
  /\ allProducts (globals (run events p)) = allProducts (globals p).
Proof.
  unfold run. revert p. induction events as [|e events IH]; intros p Hev Hp.
  - split; [exact Hp | reflexivity].
  - inversion Hev as [|? ? He Hevents]; subst.
    destruct (step_consistent e p He Hp) as [Hstep Hcat].
    destruct (IH (step p e) Hevents Hstep) as [Hrun Hcat'].
    cbn [fold_left]. split; [exact Hrun | now rewrite Hcat'].
Qed.


(** ** Paginator: where the items of the control lead *)

(** The page numbers of the links carrying the [active] class. *)
Definition activePages (items : list PageItem) : list Z :=
  flat_map (fun item => match item with
                        | PageLink true page => [page]
                        | _ => []
                        end) items.

Lemma filter_one_sorted (x : Z) (l : list Z) :
  StronglySorted Z.lt l -> In x l -> filter (fun i => i =? x) l = [x].
Proof.
  induction 1 as [|y l Hs IH Hf]; intros Hin; [destruct Hin|].
  rewrite Forall_forall in Hf. simpl.
  destruct Hin as [->|Hin].
  - rewrite Z.eqb_refl. f_equal. apply filter_none.
    intros i Hi. apply Z.eqb_neq. specialize (Hf i Hi). lia.
  - replace (y =? x) with false
      by (symmetry; apply Z.eqb_neq; specialize (Hf x Hin); lia).
    now apply IH.
Qed.

Lemma activePages_links (current : Z) (l : list Z) :
  activePages (map (fun i => PageLink (i =? current) i) l)
  = filter (fun i => i =? current) l.
Proof.
  unfold activePages. induction l as [|x l IH]; [reflexivity|].
  cbn [map flat_map filter]. rewrite IH. now destruct (x =? current).
Qed.

(** A click on a pagination item whose handler asks for [target]: the
    request is dropped, or [target] becomes the current page. *)
Definition click_outcome (p : Page) (dropped : bool) (target : Z) : Prop :=
  if dropped then changePage target p = p
  else currentPage (globals (changePage target p)) = target.

(** X6.  With a positive page size, more than one page and the current
    page within [1, totalPages]: exactly one numbered link is marked
    active and it is the current page; every numbered link leads to its
    page; the previous button asks for [currentPage - 1] and is disabled
    exactly on page 1, the next button asks for [currentPage + 1] and is
    disabled exactly on the last page; a click on a disabled button
    changes nothing and a click on an enabled one goes to its target. *)
Theorem pagination_items_lead_somewhere (p : Page) :
  0 < itemsPerPage (globals p) ->
  1 < totalPagesOf (globals p) ->
  1 <= currentPage (globals p) <= totalPagesOf (globals p) ->
  activePages (renderPagination (globals p)) = [currentPage (globals p)]
  /\ forall item, In item (renderPagination (globals p)) ->
       match item with
       | PageLink active page =>
           active = (page =? currentPage (globals p))
           /\ click_outcome p false page
       | PrevButton disabled target =>
           target = currentPage (globals p) - 1
           /\ disabled = (currentPage (globals p) =? 1)
           /\ click_outcome p disabled target
       | NextButton disabled target =>
           target = currentPage (globals p) + 1
           /\ disabled = (currentPage (globals p) =? totalPagesOf (globals p))
           /\ click_outcome p disabled target
       | Ellipsis => True
       end.
Proof.
  intros _ Htp Hcp. set (g := globals p) in *.
  unfold renderPagination.
  replace (totalPagesOf g <=? 1) with false by (symmetry; apply Z.leb_gt; lia).
  pose proof (pageWindow_bounds _ _ Hcp) as Hw.
  destruct (pageWindow (currentPage g) (totalPagesOf g)) as [s e].
  destruct Hw as (Hs & He & Hlen).
  assert (Hgo : forall page, 1 <= page <= totalPagesOf g ->
                             click_outcome p false page)
    by (intros page Hpage; now apply changePage_in_range).
  split.
  - unfold activePages. cbn [flat_map app]. rewrite !flat_map_app.
    fold (activePages (map (fun i => PageLink (i =? currentPage g) i) (range s e))).
    rewrite activePages_links.
    rewrite (filter_one_sorted _ _ (range_sorted s e))
      by (apply range_In; lia).
    destruct (s >? 1), (s >? 2), (e <? totalPagesOf g),
      (e <? totalPagesOf g - 1); reflexivity.
  - intros item Hin. rewrite !in_app_iff in Hin.
    destruct Hin as [Hin|[Hin|[Hin|[Hin|Hin]]]].
    + destruct Hin as [<-|[]]. split; [reflexivity|]. split; [reflexivity|].
      unfold click_outcome. destruct (Z.eqb_spec (currentPage g) 1) as [E|E].
      * unfold changePage. fold g.
        replace (currentPage g - 1 <? 1) with true
          by (symmetry; apply Z.ltb_lt; lia).
        reflexivity.
      * apply changePage_in_range. fold g. lia.
    + destruct (Z.gtb_spec s 1) as [Hs1|Hs1]; [|destruct Hin].
      destruct Hin as [<-|Hin].
      * split; [symmetry; apply Z.eqb_neq; lia | apply Hgo; lia].
      * destruct (s >? 2); [destruct Hin as [<-|[]]; exact I | destruct Hin].
    + apply in_map_iff in Hin as (i & <- & Hi). apply range_In in Hi.
      split; [reflexivity | apply Hgo; lia].
    + destruct (Z.ltb_spec e (totalPagesOf g)) as [He1|He1]; [|destruct Hin].
      apply in_app_iff in Hin as [Hin|Hin].
      * destruct (e <? totalPagesOf g - 1);
          [destruct Hin as [<-|[]]; exact I | destruct Hin].
      * destruct Hin as [<-|[]].
        split; [symmetry; apply Z.eqb_neq; lia | apply Hgo; lia].
    + destruct Hin as [<-|[]]. split; [reflexivity|]. split; [reflexivity|].
      unfold click_outcome.
      destruct (Z.eqb_spec (currentPage g) (totalPagesOf g)) as [E|E].
      * unfold changePage. fold g.
        replace (currentPage g + 1 >? totalPagesOf g) with true
          by (symmetry; apply Z.gtb_lt; lia).
        now rewrite orb_true_r.
      * apply changePage_in_range. fold g. lia.
Qed.

(** ** Query engine: what the price sorts guarantee *)

Section Stability.
Context {A : Type}.
Variable cmp : A -> A -> Z.
Variable same : A -> bool.
Hypothesis same_equal : forall x y, same x = true -> same y = true -> cmp x y <= 0.

Lemma insert_keeps_class (x : A) (l : list A) :
  filter same (insert cmp x l) = filter same (x :: l).
Proof.
  induction l as [|y l IH]; [reflexivity|].
  cbn [insert]. destruct (Z.leb_spec (cmp x y) 0) as [Hle|Hgt]; [reflexivity|].
  cbn [filter] in *. rewrite IH.
  destruct (same x) eqn:Ex, (same y) eqn:Ey; try reflexivity.
  specialize (same_equal x y Ex Ey). lia.
Qed.

Lemma sort_keeps_class (l : list A) : filter same (sort cmp l) = filter same l.
Proof.
  induction l as [|x l IH]; [reflexivity|].
  cbn [sort]. rewrite insert_keeps_class. cbn [filter]. now rewrite IH.
Qed.
End Stability.

Lemma sort_sorted_same (A : Type) (cmp : A -> A -> Z) (l : list A) :
  StronglySorted (ordered cmp) l -> sort cmp l = l.
Proof.
  induction 1 as [|x l Hs IH Hf]; [reflexivity|].
  cbn [sort]. rewrite IH. destruct l as [|y l]; [reflexivity|].
  cbn [insert]. inversion Hf as [|? ? Hxy _]; subst.
  unfold ordered in Hxy. apply Z.leb_le in Hxy. now rewrite Hxy.
Qed.

Lemma StronglySorted_weaken (A : Type) (R S : A -> A -> Prop) (l : list A) :
  (forall a b, R a b -> S a b) -> StronglySorted R l -> StronglySorted S l.
Proof.
  intros HRS. induction 1 as [|x l Hs IH Hf]; constructor; [assumption|].
  eapply Forall_impl; [|exact Hf]. intros y. apply HRS.
Qed.

(** X7.  Sorting by ascending price leaves the view with prices that
    never decrease from a product to any later one, sorting by descending
    price with prices that never increase; both keep, for every price, the
    products of that price in the order they had (the sort is stable), and
    so neither adds nor loses a product. *)
Theorem price_sorts_ordered_stable (view : list Product) :
  StronglySorted (fun a b => price a <= price b) (sorted "price-asc" view)
  /\ StronglySorted (fun a b => price b <= price a) (sorted "price-desc" view)
  /\ forall c,
       filter (fun x => price x =? c) (sorted "price-asc" view)
       = filter (fun x => price x =? c) view
       /\ filter (fun x => price x =? c) (sorted "price-desc" view)
          = filter (fun x => price x =? c) view.
Proof.
  change (sorted "price-asc" view) with (sort byPriceAsc view).
  change (sorted "price-desc" view) with (sort byPriceDesc view).
  split; [|split].
  - eapply StronglySorted_weaken; [|apply byPriceAsc_sorted].
    unfold ordered, byPriceAsc. intros a b H. lia.
  - eapply StronglySorted_weaken; [|apply byPriceDesc_sorted].
    unfold ordered, byPriceDesc. intros a b H. lia.
  - intros c. split; apply sort_keeps_class; intros x y Hx Hy;
      apply Z.eqb_eq in Hx, Hy; unfold byPriceAsc, byPriceDesc; lia.
Qed.


Lemma price_sorted_again (key : string) (view : list Product) :
  key = "price-asc" \/ key = "price-desc" ->
  sorted key (sorted key view) = sorted key view.
Proof.
  intros [-> | ->].
  - change (sorted "price-asc") with (sort byPriceAsc).
    apply sort_sorted_same, byPriceAsc_sorted.
  - change (sorted "price-desc") with (sort byPriceDesc).
    apply sort_sorted_same, byPriceDesc_sorted.
Qed.

Lemma page_eta (p : Page) : mkPage (globals p) (dom p) = p.
Proof. now destruct p. Qed.

(** X8.  The selected price sort is kept up: selecting the same price
    key a second time changes nothing, in the globals or in the document,
    and with a price key selected the view every search leaves behind is
    in that key's price order. *)
Theorem price_sort_kept (key : string) (p : Page) :
  key = "price-asc" \/ key = "price-desc" ->
  sortOptionsChange key (sortOptionsChange key p) = sortOptionsChange key p
  /\ forall t,
       currentSort (globals p) = key ->
       StronglySorted
         (fun a b => if String.eqb key "price-asc"
                     then price a <= price b else price b <= price a)
         (filteredProducts (globals (handleSearch t p))).
Proof.
  intros Hkey. split.
  - assert (Hne : key <> "") by (destruct Hkey as [-> | ->]; discriminate).
    apply truthy_true in Hne.
    assert (Hfirst : forall q,
               sortOptionsChange key q
               = renderProducts
                   (mkPage (set_currentPage 1
                              (applySorting key (set_currentSort key (globals q))))
                           (dom q))).
    { intros q. unfold sortOptionsChange, handleSort. cbn [globals dom currentSort set_currentSort].
      now rewrite Hne. }
    rewrite (Hfirst (sortOptionsChange key p)).
    rewrite (Hfirst p) at 1 2. rewrite globals_renderProducts. cbn [globals].
    set (g := set_currentPage 1 (applySorting key (set_currentSort key (globals p)))).
    assert (Hg : set_currentPage 1 (applySorting key (set_currentSort key g)) = g).
    { unfold g, applySorting, set_currentPage, set_currentSort, set_filteredProducts.
      cbn. now rewrite price_sorted_again. }
    rewrite Hg, Hfirst. fold g.
    transitivity (renderProducts (renderProducts (mkPage g (dom p))));
      [|apply renderProducts_idempotent].
    f_equal. rewrite <- (page_eta (renderProducts (mkPage g (dom p)))) at 2.
    now rewrite globals_renderProducts.
  - intros t Hsel. rewrite globals_handleSearch.
    cbn [filteredProducts set_currentPage set_filteredProducts]. rewrite Hsel.
    destruct Hkey as [-> | ->]; cbn [String.eqb Ascii.eqb Bool.eqb].
    + change (sorted "price-asc") with (sort byPriceAsc).
      eapply StronglySorted_weaken; [|apply byPriceAsc_sorted].
      unfold ordered, byPriceAsc. intros a b H. lia.
    + change (sorted "price-desc") with (sort byPriceDesc).
      eapply StronglySorted_weaken; [|apply byPriceDesc_sorted].
      unfold ordered, byPriceDesc. intros a b H. lia.
Qed.


(** ** Escaping text for the markup *)

Definition ampersand : ascii := "&".
Definition lessThan : ascii := "<".
Definition greaterThan : ascii := ">".
Definition doubleQuote : ascii := "034".
Definition singleQuote : ascii := "'".

(** The table [map] of [escapeHtml], applied to one character. *)
Definition escapeChar (c : ascii) : string :=
  if Ascii.eqb c ampersand then "&amp;"
  else if Ascii.eqb c lessThan then "&lt;"
  else if Ascii.eqb c greaterThan then "&gt;"
  else if Ascii.eqb c doubleQuote then "&quot;"
  else if Ascii.eqb c singleQuote then "&#039;"
  else String c "".

(** The [text.replace] of [escapeHtml]: every character of the table
    is replaced by its entry, the others are kept. *)
Fixpoint replaceSpecial (text : string) : string :=
  match text with
  | EmptyString => EmptyString
  | String c rest => escapeChar c ++ replaceSpecial rest
  end.

(** [escapeHtml(text)] for a string; a missing text gives the empty
    string as the empty text does. *)
Definition escapeHtml (text : string) : string :=
  if truthy text then replaceSpecial text else "".

(** The text an HTML parser reads back where character references are
    recognised, for the five references [escapeHtml] writes; [skip] counts
    the characters of a reference still to be passed over. *)
Fixpoint readBack (skip : nat) (markup : string) : string :=
  match markup with
  | EmptyString => EmptyString
  | String c rest =>
      match skip with
      | S k => readBack k rest
      | O =>
          if negb (Ascii.eqb c ampersand) then String c (readBack 0 rest)
          else if startsWith rest "amp;" then String ampersand (readBack 4 rest)
          else if startsWith rest "lt;" then String lessThan (readBack 3 rest)
          else if startsWith rest "gt;" then String greaterThan (readBack 3 rest)
          else if startsWith rest "quot;" then String doubleQuote (readBack 5 rest)
          else if startsWith rest "#039;" then String singleQuote (readBack 5 rest)
          else String c (readBack 0 rest)
      end
  end.

(** A character that can open or close a tag or an attribute value. *)
Definition delimiter (c : ascii) : bool :=
  Ascii.eqb c lessThan || Ascii.eqb c greaterThan
  || Ascii.eqb c doubleQuote || Ascii.eqb c singleQuote.

Fixpoint allChars (ok : ascii -> bool) (s : string) : bool :=
  match s with
  | EmptyString => true
  | String c rest => ok c && allChars ok rest
  end.

Lemma allChars_app (ok : ascii -> bool) (s t : string) :
  allChars ok (s ++ t) = allChars ok s && allChars ok t.
Proof.
  induction s as [|c s IH]; simpl; [reflexivity|].
  now rewrite IH, andb_assoc.
Qed.

Lemma escapeHtml_replace (text : string) : escapeHtml text = replaceSpecial text.
Proof. now destruct text. Qed.

Ltac by_special c :=
  unfold escapeChar;
  destruct (Ascii.eqb_spec c ampersand) as [->|Hamp]; [|
  destruct (Ascii.eqb_spec c lessThan) as [->|Hlt]; [|
  destruct (Ascii.eqb_spec c greaterThan) as [->|Hgt]; [|
  destruct (Ascii.eqb_spec c doubleQuote) as [->|Hdq]; [|
  destruct (Ascii.eqb_spec c singleQuote) as [->|Hsq]]]]].

Lemma escapeChar_no_delimiter (c : ascii) :
  allChars (fun ch => negb (delimiter ch)) (escapeChar c) = true.
Proof.
  by_special c; try reflexivity.
  cbn [allChars]. unfold delimiter.
  apply Ascii.eqb_neq in Hlt, Hgt, Hdq, Hsq. now rewrite Hlt, Hgt, Hdq, Hsq.
Qed.

Lemma readBack_escapeChar (c : ascii) (markup : string) :
  readBack 0 (escapeChar c ++ markup) = String c (readBack 0 markup).
Proof.
  by_special c; try reflexivity.
  cbn [append readBack]. apply Ascii.eqb_neq in Hamp. now rewrite Hamp.
Qed.

(** X9.  [escapeHtml] writes no [<], [>], double or single quote, so the
    escaped text cannot end the element or the attribute value it is put
    in; it escapes piece by piece; and nothing is lost: reading the five
    character references back gives the original text, so two texts with
    the same escaped form are the same text. *)
Theorem escapeHtml_safe_and_faithful (text : string) :
  allChars (fun ch => negb (delimiter ch)) (escapeHtml text) = true
  /\ (forall more, escapeHtml (text ++ more) = escapeHtml text ++ escapeHtml more)
  /\ readBack 0 (escapeHtml text) = text
  /\ (forall other, escapeHtml other = escapeHtml text -> other = text).
Proof.
  assert (Hback : forall s, readBack 0 (replaceSpecial s) = s).
  { induction s as [|c s IH]; [reflexivity|].
    cbn [replaceSpecial]. rewrite readBack_escapeChar. now rewrite IH. }
  rewrite !escapeHtml_replace. split; [|split; [|split]].
  - induction text as [|c s IH]; [reflexivity|].
    cbn [replaceSpecial]. rewrite allChars_app, escapeChar_no_delimiter. exact IH.
  - intros more. rewrite !escapeHtml_replace.
    induction text as [|c s IH]; [reflexivity|].
    cbn [append replaceSpecial]. rewrite IH.
    clear. induction (escapeChar c) as [|a e IHe]; [reflexivity|].
    cbn [append]. now rewrite IHe.
  - apply Hback.
  - intros other Heq. rewrite escapeHtml_replace in Heq.
    rewrite <- (Hback other), Heq. apply Hback.
Qed.

(** ** The proxy URLs *)

(** The characters [encodeURIComponent] can write: the ones it leaves
    alone, and the percent sign of an escape. *)
Definition uriSafe (c : ascii) : bool := isUnreserved c || Ascii.eqb c "%".

Lemma hexDigit_unreserved (d : Z) : isUnreserved (hexDigit d) = true.
Proof.
  unfold hexDigit.
  repeat match goal with
         | |- context [match ?x with _ => _ end] => destruct x
         end; reflexivity.
Qed.

Lemma percentByte_safe (b : Z) : allChars uriSafe (percentByte b) = true.
Proof.
  unfold percentByte. cbn [allChars]. unfold uriSafe at 2 3.
  now rewrite !hexDigit_unreserved.
Qed.

Lemma encodeChar_safe (c : ascii) : allChars uriSafe (encodeChar c) = true.
Proof.
  unfold encodeChar. destruct (isUnreserved c) eqn:E.
  - cbn [allChars]. unfold uriSafe. now rewrite E.
  - destruct (charCode c <? 128); rewrite ?allChars_app, !percentByte_safe;
      reflexivity.
Qed.

Lemma encodeChar_length (c : ascii) : (1 <= String.length (encodeChar c))%nat.
Proof.
  unfold encodeChar, percentByte.
  destruct (isUnreserved c); [simpl; lia|].
  destruct (charCode c <? 128); simpl; lia.
Qed.

Lemma allChars_In (ok : ascii -> bool) (s : string) (c : ascii) :
  allChars ok s = true -> In c (list_ascii_of_string s) -> ok c = true.
Proof.
  induction s as [|a s IH]; simpl; [intros _ []|].
  rewrite andb_true_iff. intros [Ha Hs] [<-|Hin]; auto.
Qed.

(** X10.  Every character of an encoded URL component is a letter, a
    digit, one of - _ . ! ~ * ' ( ) or the percent sign.  The proxy URLs
    are built from the encoded original URL, so nothing of the original
    URL can act as a separator in them: a proxy URL is its fixed prefix,
    characters that are none of [&], [=], [?], [#] and [/], and, for the
    two image proxies, the fixed parameter [&default=1]. *)
Theorem proxy_urls_well_formed (originalUrl : string) :
  let encoded := encodeURIComponent originalUrl in
  allChars uriSafe encoded = true
  /\ (forall c, In c (list_ascii_of_string encoded) ->
                ~ In c ["&"; "="; "?"; "#"; "/"; ":"; " "]%char)
  /\ proxyA originalUrl = "https://wsrv.nl/?url=" ++ encoded ++ "&default=1"
  /\ proxyB originalUrl = "https://images.weserv.nl/?url=" ++ encoded ++ "&default=1"
  /\ corsRelay originalUrl = "https://corsproxy.io/?" ++ encoded
  /\ (String.length originalUrl <= String.length encoded)%nat.
Proof.
  cbv zeta.
  assert (Hsafe : allChars uriSafe (encodeURIComponent originalUrl) = true).
  { induction originalUrl as [|c s IH]; [reflexivity|].
    cbn [encodeURIComponent]. now rewrite allChars_app, encodeChar_safe. }
  split; [exact Hsafe|]. split; [|repeat split].
  - intros c Hc Hbad. pose proof (allChars_In _ _ _ Hsafe Hc) as Hok.
    cbn [In] in Hbad.
    repeat (destruct Hbad as [<-|Hbad]; [discriminate|]). exact Hbad.
  - induction originalUrl as [|c s IH]; [simpl; lia|].
    cbn [encodeURIComponent String.length].
    assert (Hlen : forall a b, String.length (a ++ b)
                               = (String.length a + String.length b)%nat)
      by (intros a b; induction a as [|x a IHa]; simpl; [reflexivity | now rewrite IHa]).
    rewrite Hlen. pose proof (encodeChar_length c).
    assert (allChars uriSafe (encodeURIComponent s) = true)
      by (cbn [encodeURIComponent] in Hsafe; rewrite allChars_app in Hsafe;
          now apply andb_true_iff in Hsafe).
    specialize (IH H0). lia.
Qed.


(** ** Image resolver: the chain is bounded *)

Lemma onerror_retry (img : Image) (w : Wrapper) :
  image_error img = false -> wrapper img = Some w -> attemptOf w + 1 < 4 ->
  image_error (onerror img) = false
  /\ onerror_url (onerror img) = onerror_url img
  /\ exists w', wrapper (onerror img) = Some w'
                /\ attemptOf w' = attemptOf w + 1.
Proof.
  intros He Hw Ha. unfold onerror, handleImageError. rewrite He, Hw.
  change (Z.of_nat (List.length (fallbackStrategies (onerror_url img)))) with 4.
  apply Z.ltb_lt in Ha. rewrite Ha. cbn. split; [exact He|].
  split; [reflexivity|]. eexists. split; reflexivity.
Qed.

Lemma onerror_give_up (img : Image) (w : Wrapper) :
  image_error img = false -> wrapper img = Some w -> 4 <= attemptOf w + 1 ->
  image_error (onerror img) = true /\ src (onerror img) = src img.
Proof.
  intros He Hw Ha. unfold onerror, handleImageError. rewrite He, Hw.
  change (Z.of_nat (List.length (fallbackStrategies (onerror_url img)))) with 4.
  apply Z.ltb_ge in Ha. rewrite Ha. cbn. auto.
Qed.

Lemma failures_give_up (k : nat) (img : Image) (w : Wrapper) :
  wrapper img = Some w -> 3 - attemptOf w <= Z.of_nat k ->
  image_error (failures (S k) img) = true.
Proof.
  revert img w. induction k as [|k IH]; intros img w Hw Ha;
    destruct (image_error img) eqn:He;
    try (rewrite failures_failed by exact He; exact He).
  - cbn [failures]. apply (onerror_give_up img w He Hw). lia.
  - change (failures (S (S k)) img) with (failures (S k) (onerror img)).
    destruct (Z.lt_ge_cases (attemptOf w + 1) 4) as [Hlt|Hge].
    + destruct (onerror_retry img w He Hw Hlt) as (_ & _ & w' & Hw' & Ha').
      apply (IH _ w' Hw'). lia.
    + rewrite failures_failed; apply (onerror_give_up img w He Hw Hge).
Qed.

(** X11.  The fallback chain is bounded.  An image inside a wrapper whose
    stored attempt index is not negative is marked failed after at most
    four failure events and stays as it is from then on, and over any
    number of failure events its source is only ever its starting source
    or one of the three proxy candidates of the URL in its handler: the
    handler never puts the direct URL back. *)
Theorem fallback_chain_bounded (img : Image) (w : Wrapper) :
  wrapper img = Some w -> 0 <= attemptOf w ->
  image_error (failures 4 img) = true
  /\ (forall n, failures (4 + n) img = failures 4 img)
  /\ forall n,
       src (failures n img) = src img
       \/ In (src (failures n img))
             [proxyA (onerror_url img); proxyB (onerror_url img);
              corsRelay (onerror_url img)].
Proof.
  intros Hw Ha.
  assert (Hfail : image_error (failures 4 img) = true)
    by (apply (failures_give_up 3 img w Hw); lia).
  split; [exact Hfail|]. split.
  - intros n. change (failures (4 + n) img) with (failures n (failures 4 img)).
    now apply failures_failed.
  - intros n. revert img w Hw Ha Hfail.
    induction n as [|n IH]; intros img w Hw Ha _; [now left|].
    cbn [failures].
    destruct (image_error img) eqn:He.
    { unfold onerror. rewrite handleImageError_failed by exact He.
      rewrite failures_failed by exact He. now left. }
    destruct (Z.lt_ge_cases (attemptOf w + 1) 4) as [Hlt|Hge].
    + destruct (onerror_retry img w He Hw Hlt) as (_ & Hurl & w' & Hw' & Ha').
      assert (Hsrc : In (src (onerror img))
                        [proxyA (onerror_url img); proxyB (onerror_url img);
                         corsRelay (onerror_url img)]).
      { unfold onerror, handleImageError. rewrite He, Hw.
        change (Z.of_nat (List.length (fallbackStrategies (onerror_url img))))
          with 4.
        replace (attemptOf w + 1 <? 4) with true by (symmetry; apply Z.ltb_lt; lia).
        cbn [src set_src].
        assert (Hcases : attemptOf w + 1 = 1 \/ attemptOf w + 1 = 2
                         \/ attemptOf w + 1 = 3) by lia.
        destruct Hcases as [-> | [-> | ->]]; cbn; auto. }
      assert (Hfail' : image_error (failures 4 (onerror img)) = true)
        by (apply (failures_give_up 3 _ w' Hw'); lia).
      destruct (IH (onerror img) w' Hw' ltac:(lia) Hfail') as [Hsame|Hin].
      * right. now rewrite Hsame.
      * right. now rewrite <- Hurl.
    + destruct (onerror_give_up img w He Hw Hge) as [Hf Hs].
      rewrite failures_failed by exact Hf. now left.
Qed.


(** ** Loading the catalog *)

(** The message [fetchProducts] passes to [showError]. *)
Inductive Message : Type :=
| ProductsNotLoaded.

(** The document with the two things [fetchProducts] touches besides the
    nodes of [Dom]: the loading spinner, and the error row [showError]
    writes into the table body in place of the product rows. *)
Record Document := mkDocument {
  page : Page;
  loadingSpinner_shown : bool;
  errorRow : option Message
}.

(** How the request of [fetchProducts] can end: [fetch] rejects, or it
    resolves with a response whose [ok] flag is set or not and whose body
    parses to a list of products of the data model or fails to. *)
Inductive FetchOutcome : Type :=
| Rejected
| Response (ok : bool) (status : Z) (json : option (list Product)).

Definition set_catalog (data : list Product) (g : Globals) : Globals :=
  mkGlobals data data (currentPage g) (itemsPerPage g) (currentSort g).

Definition showLoading (show : bool) (doc : Document) : Document :=
  let d := dom (page doc) in
  if show then
    mkDocument
      (mkPage (globals (page doc))
              (mkDom (productTableBody d) (pagination d) (pageInfo d)
                     false false (scrolls d)))
      true (errorRow doc)
  else
    mkDocument
      (mkPage (globals (page doc))
              (mkDom (productTableBody d) (pagination d) (pageInfo d)
                     (noResults_shown d) true (scrolls d)))
      false (errorRow doc).

Definition showError (message : Message) (doc : Document) : Document :=
  let d := dom (page doc) in
  mkDocument
    (mkPage (globals (page doc))
            (mkDom [] (pagination d) (pageInfo d) (noResults_shown d) true
                   (scrolls d)))
    (loadingSpinner_shown doc) (Some message).

(** [renderProducts] on the document: product rows written into the table
    body replace an error row; an empty view leaves the table body alone. *)
Definition renderDocument (doc : Document) : Document :=
  mkDocument (renderProducts (page doc)) (loadingSpinner_shown doc)
             (if (List.length (filteredProducts (globals (page doc))) =? 0)%nat
              then errorRow doc else None).

(** [fetchProducts] up to its [await]. *)
Definition fetchStart (doc : Document) : Document := showLoading true doc.

(** [fetchProducts] from the moment the request has ended. *)
Definition fetchSettle (outcome : FetchOutcome) (doc : Document) : Document :=
  match outcome with
  | Response true _ (Some data) =>
      let doc := mkDocument (mkPage (set_catalog data (globals (page doc)))
                                    (dom (page doc)))
                            (loadingSpinner_shown doc) (errorRow doc) in
      showLoading false (renderDocument doc)
  | _ => showError ProductsNotLoaded (showLoading false doc)
  end.

(** A run of [fetchProducts] that no other event interrupts. *)
Definition fetchProducts (outcome : FetchOutcome) (doc : Document) : Document :=
  fetchSettle outcome (fetchStart doc).

Lemma fetch_success_empty (status : Z) (doc : Document) :
  fetchProducts (Response true status (Some [])) doc
  = let d := dom (page doc) in
    mkDocument
      (mkPage (set_catalog [] (globals (page doc)))
              (mkDom (productTableBody d) (pagination d) (pageInfo d)
                     true true (scrolls d)))
      false (errorRow doc).
Proof. reflexivity. Qed.

Lemma fetch_success_rows (status : Z) (data : list Product) (doc : Document) :
  data <> [] ->
  fetchProducts (Response true status (Some data)) doc
  = let g := set_catalog data (globals (page doc)) in
    mkDocument
      (mkPage g
              (mkDom (map createProductRow (productsToShow g))
                     (renderPagination g) (Some (updatePageInfo g))
                     false true (scrolls (dom (page doc)))))
      false None.
Proof.
  intros Hne. unfold fetchProducts, fetchStart, fetchSettle, renderDocument.
  cbn [showLoading page globals dom loadingSpinner_shown errorRow].
  rewrite renderProducts_rows by exact Hne.
  destruct data as [|x data]; [now contradiction Hne | reflexivity].
Qed.

Lemma set_catalog_consistent (data : list Product) (g : Globals) :
  0 < itemsPerPage g -> currentPage g = 1 -> consistent (set_catalog data g).
Proof.
  intros Hps Hcp. unfold consistent. cbn. repeat split; auto; try lia.
  exists (fun _ => true). now rewrite filter_all.
Qed.

(** X12.  A load that succeeds stores the received list as the catalog
    and, in the received order whatever sort key is selected, as the view,
    and leaves the current page, the page size and the sort key alone; it
    hides the spinner and shows the table container, also for an empty
    list, where the no-results block is shown as well.  For a list that is
    not empty the no-results block is hidden and the rows are those of the
    current page's slice of the list.  If the page was on page 1 with a
    positive page size, the globals are consistent. *)
Theorem fetch_success (status : Z) (data : list Product) (doc : Document) :
  let doc' := fetchProducts (Response true status (Some data)) doc in
  let g := globals (page doc) in
  let g' := globals (page doc') in
  let d' := dom (page doc') in
  allProducts g' = data /\ filteredProducts g' = data
  /\ currentPage g' = currentPage g /\ itemsPerPage g' = itemsPerPage g
  /\ currentSort g' = currentSort g
  /\ loadingSpinner_shown doc' = false
  /\ tableContainer_shown d' = true
  /\ (data = [] -> noResults_shown d' = true /\ errorRow doc' = errorRow doc)
  /\ (data <> [] ->
      noResults_shown d' = false /\ errorRow doc' = None
      /\ map row_product (productTableBody d') = productsToShow g')
  /\ (0 < itemsPerPage g -> currentPage g = 1 -> consistent g').
Proof.
  cbv zeta. destruct data as [|x data].
  - rewrite fetch_success_empty.
    cbn [page globals dom set_catalog allProducts filteredProducts currentPage
         itemsPerPage currentSort loadingSpinner_shown errorRow
         tableContainer_shown noResults_shown].
    repeat apply conj; try reflexivity.
    + intros _. split; reflexivity.
    + intros H. now contradiction H.
    + intros Hps Hcp. now apply set_catalog_consistent.
  - rewrite fetch_success_rows by discriminate.
    cbn [page globals dom set_catalog allProducts filteredProducts currentPage
         itemsPerPage currentSort loadingSpinner_shown errorRow
         tableContainer_shown noResults_shown productTableBody].
    repeat apply conj; try reflexivity.
    + discriminate.
    + intros _. repeat apply conj; try reflexivity.
      apply row_product_createProductRow.
    + intros Hps Hcp. now apply set_catalog_consistent.
Qed.

(** X13.  A load that fails, because the request is rejected, the
    response is not [ok] or its body does not parse, changes none of the
    globals; it hides the spinner and the no-results block, shows the
    table container, and puts the error row in place of the rows of the
    table body; the pagination links and the page info are left as they
    were. *)
Theorem fetch_failure (outcome : FetchOutcome) (doc : Document) :
  (forall status data, outcome <> Response true status (Some data)) ->
  let doc' := fetchProducts outcome doc in
  globals (page doc') = globals (page doc)
  /\ loadingSpinner_shown doc' = false
  /\ noResults_shown (dom (page doc')) = false
  /\ tableContainer_shown (dom (page doc')) = true
  /\ errorRow doc' = Some ProductsNotLoaded
  /\ productTableBody (dom (page doc')) = []
  /\ pagination (dom (page doc')) = pagination (dom (page doc))
  /\ pageInfo (dom (page doc')) = pageInfo (dom (page doc)).
Proof.
  intros Hfail. cbv zeta. unfold fetchProducts, fetchStart, fetchSettle.
  destruct outcome as [|[|] status [data|]];
    try (now contradiction (Hfail status data));
    cbn; repeat split; reflexivity.
Qed.


(** ** Page change: an accepted request *)

(** X14.  With a positive page size, a request for a page within
    [1, totalPages] makes it the current page and changes no other global;
    the table body then holds the rows of that page's slice, the
    pagination control and the page info are those of the new page, the
    table is shown, and the table is scrolled into view once. *)
Theorem changePage_accepted (page : Z) (p : Page) :
  0 < itemsPerPage (globals p) ->
  1 <= page <= totalPagesOf (globals p) ->
  let g := set_currentPage page (globals p) in
  changePage page p
  = mkPage g
      (mkDom (map createProductRow (productsToShow g))
             (renderPagination g) (Some (updatePageInfo g))
             false true (S (scrolls (dom p)))).
Proof.
  intros Hps Hpage. cbv zeta.
  pose proof (ceilDiv_spec (Z.of_nat (List.length (filteredProducts (globals p))))
                           (itemsPerPage (globals p)) Hps) as Hc.
  fold (totalPagesOf (globals p)) in Hc.
  assert (Hne : filteredProducts (globals p) <> [])
    by (intros E; rewrite E in Hc; simpl in Hc; nia).
  unfold changePage.
  replace (page <? 1) with false by (symmetry; apply Z.ltb_ge; lia).
  replace (page >? totalPagesOf (globals p)) with false
    by (symmetry; rewrite Z.gtb_ltb; apply Z.ltb_ge; lia).
  cbn [orb]. rewrite renderProducts_rows by exact Hne. reflexivity.
Qed.

(** ** Rows: cleaning an image entry *)

Lemma trimEnd_kept (s : string) (c : ascii) :
  isWhite c = false -> trimEnd (s ++ String c "") = s ++ String c "".
Proof.
  intros Hc. induction s as [|a s IH]; cbn [append trimEnd].
  - now rewrite Hc.
  - rewrite IH. now destruct s.
Qed.

Lemma substring_all (s : string) : substring 0 (String.length s) s = s.
Proof. induction s as [|c s IH]; simpl; [reflexivity | now rewrite IH]. Qed.

Lemma append_length (s t : string) :
  String.length (s ++ t) = (String.length s + String.length t)%nat.
Proof. induction s as [|c s IH]; simpl; [reflexivity | now rewrite IH]. Qed.

Lemma dropSuffix_append (suf s : string) :
  suf <> "" -> dropSuffix suf (s ++ suf) = s.
Proof.
  intros Hsuf. induction s as [|c s IH].
  - destruct suf as [|a suf]; [now contradiction Hsuf|].
    cbn [append dropSuffix]. now rewrite String.eqb_refl.
  - cbn [append dropSuffix].
    destruct (String.eqb_spec (String c (s ++ suf)) suf) as [E|_].
    + apply (f_equal String.length) in E. cbn [String.length] in E.
      rewrite append_length in E. lia.
    + now rewrite IH.
Qed.

Lemma append_assoc (s t u : string) : (s ++ t) ++ u = s ++ t ++ u.
Proof. induction s as [|c s IH]; simpl; [reflexivity | now rewrite IH]. Qed.

Lemma trimEnd_white (s : string) : allChars isWhite s = true -> trimEnd s = "".
Proof.
  induction s as [|c s IH]; [reflexivity|].
  cbn [allChars trimEnd]. intros H. apply andb_true_iff in H as [Hc Hs].
  now rewrite IH, Hc.
Qed.

Lemma trimEnd_append_white (s after : string) :
  allChars isWhite after = true -> trimEnd (s ++ after) = trimEnd s.
Proof.
  intros Ha. induction s as [|c s IH]; cbn [append trimEnd].
  - now apply trimEnd_white.
  - now rewrite IH.
Qed.

Lemma dropPrefix_openQuote (rest : string) :
  dropPrefix openQuote (openQuote ++ rest) = rest.
Proof.
  unfold dropPrefix, openQuote. cbn [append startsWith].
  rewrite !Ascii.eqb_refl. cbn [andb String.length Nat.sub substring].
  rewrite Nat.sub_0_r. apply substring_all.
Qed.

(** X16.  Cleaning an image entry removes the array-notation wrapping: an
    entry that is a URL between an opening bracket and quote and a closing
    quote and bracket, with any white space around it, is cleaned to
    exactly that URL. *)
Theorem cleanImage_unwraps (url : string) (before after : string) :
  allChars isWhite before = true -> allChars isWhite after = true ->
  cleanImage (before ++ openQuote ++ url ++ closeQuote ++ after) = url.
Proof.
  intros Hb Ha. unfold cleanImage, trim.
  assert (Hstart : trimStart (before ++ openQuote ++ url ++ closeQuote ++ after)
                   = openQuote ++ url ++ closeQuote ++ after).
  { induction before as [|c s IH]; [reflexivity|].
    cbn [allChars] in Hb. apply andb_true_iff in Hb as [Hc Hs].
    cbn [append trimStart]. rewrite Hc. now apply IH. }
  rewrite Hstart.
  replace (openQuote ++ url ++ closeQuote ++ after)
    with (((openQuote ++ url ++ String "034" "") ++ String "]" "") ++ after)
    by (unfold closeQuote; rewrite !append_assoc; reflexivity).
  rewrite trimEnd_append_white by exact Ha.
  rewrite trimEnd_kept by reflexivity.
  replace ((openQuote ++ url ++ String "034" "") ++ String "]" "")
    with (openQuote ++ url ++ closeQuote)
    by (unfold closeQuote; rewrite !append_assoc; reflexivity).
  rewrite dropPrefix_openQuote. apply dropSuffix_append. discriminate.
Qed.


(** ** Query engine: what the name sorts guarantee *)

(** X17.  When [localeCompare] orders strings consistently (a positive
    result one way is never positive the other way, and "not after" is
    transitive), sorting by name leaves the view with titles in that
    order: ascending, no product's title compares after the title of a
    later product; descending, none compares before it.  Selecting the
    same name key again leaves the view as it is, and a sort key that is
    none of the four known keys leaves the view untouched. *)
Theorem name_sorts_ordered (view : list Product) :
  (forall a b, 0 < localeCompare a b -> localeCompare b a <= 0) ->
  (forall a b c, localeCompare a b <= 0 -> localeCompare b c <= 0 ->
                 localeCompare a c <= 0) ->
  StronglySorted (fun a b => localeCompare (title a) (title b) <= 0)
                 (sorted "name-asc" view)
  /\ StronglySorted (fun a b => localeCompare (title b) (title a) <= 0)
                    (sorted "name-desc" view)
  /\ sorted "name-asc" (sorted "name-asc" view) = sorted "name-asc" view
  /\ sorted "name-desc" (sorted "name-desc" view) = sorted "name-desc" view
  /\ forall key,
       ~ In key ["price-asc"; "price-desc"; "name-asc"; "name-desc"] ->
       sorted key view = view.
Proof.
  intros Htotal Htrans.
  change (sorted "name-asc") with (sort byNameAsc).
  change (sorted "name-desc") with (sort byNameDesc).
  assert (Hasc : forall l, StronglySorted (ordered byNameAsc) (sort byNameAsc l)).
  { intros l. apply sort_sorted; unfold byNameAsc.
    - intros x y. apply Htotal.
    - intros x y z. apply Htrans. }
  assert (Hdesc : forall l, StronglySorted (ordered byNameDesc) (sort byNameDesc l)).
  { intros l. apply sort_sorted; unfold byNameDesc.
    - intros x y. apply Htotal.
    - intros x y z H1 H2. exact (Htrans _ _ _ H2 H1). }
  split; [apply Hasc|]. split; [apply Hdesc|].
  split; [apply sort_sorted_same, Hasc|].
  split; [apply sort_sorted_same, Hdesc|].
  intros key Hkey. unfold sorted.
  repeat match goal with
         | |- context [String.eqb ?a ?b] =>
             destruct (String.eqb_spec a b) as [E|_];
             [exfalso; apply Hkey; rewrite E; simpl; auto 6|]
         end.
  reflexivity.
Qed.

End Widget.

(** * Concrete pages *)

(** Stand-ins for the two browser facilities, used to run the model on
    concrete pages: comparison by code units, and a [URL] constructor
    that accepts exactly the strings with an http or https scheme. *)
Definition codeUnitCompare (a b : string) : Z :=
  match String.compare a b with
  | Lt => -1
  | Eq => 0
  | Gt => 1
  end.

Definition schemeProtocol (s : string) : option string :=
  if startsWith s "http://" then Some "http:"
  else if startsWith s "https://" then Some "https:"
  else None.

Definition item (n : Z) (name : string) (cost : Z) : Product :=
  mkProduct n name cost "" None [].

Definition emptyDom : Dom := mkDom [] [] None false true 0.

Definition shirt : Product := item 1 "Classic T-Shirt" 20.
Definition cap : Product := item 2 "Baseball Cap" 10.
Definition shoes : Product := item 3 "Running SHOES" 55.

(** A page whose catalog is not in price order, showing page 2 of it in
    ascending price order, two to a page. *)
Definition pricedPage : Page :=
  mkPage (mkGlobals [shirt; cap; shoes] [cap; shirt; shoes] 2 2 "price-asc")
         emptyDom.

(** Twenty-five products, ten to a page. *)
Definition catalog25 : list Product :=
  map (fun k => item (Z.of_nat k) "Item" (Z.of_nat k)) (seq 1 25).

Definition page25 : Page :=
  mkPage (mkGlobals catalog25 catalog25 1 10 "") emptyDom.

(** The same catalog, two to a page, on page 6 of 13. *)
Definition page25by2 : Page :=
  mkPage (mkGlobals catalog25 catalog25 6 2 "") emptyDom.

Definition imgurUrl : string := "https://i.imgur.com/QkIa5tT.jpeg".
Definition placeimgUrl : string := "https://placeimg.com/640/480/any".

Definition pictured : Product :=
  mkProduct 7 "Lamp" 30 "" (Some (mkCategory "Home" placeimgUrl))
            [imgurUrl; ""; "ftp://files/lamp.png"; placeimgUrl].

(** ** The search view on concrete pages *)

(** C1, counterexample.  With the ascending price sort selected, a search
    for the empty term yields the catalog re-sorted by price, not the
    catalog in its original order. *)
Lemma search_keeps_sort_order :
  filteredProducts
    (globals (handleSearch codeUnitCompare schemeProtocol "" pricedPage))
  = [cap; shirt; shoes]
  /\ allProducts (globals pricedPage) = [shirt; cap; shoes]
  /\ ~ search_claim codeUnitCompare schemeProtocol "" pricedPage.
Proof.
  split; [reflexivity|]. split; [reflexivity|].
  intros (_ & H & _). specialize (H eq_refl). vm_compute in H. discriminate.
Qed.

Lemma handleSearch_view_witness :
  termOf "  SH " = "sh"
  /\ Forall (fun product =>
               exists a b, toLowerCase (title product) = a ++ "sh" ++ b)
            (filteredProducts
               (globals (handleSearch codeUnitCompare schemeProtocol "  SH "
                                      pricedPage)))
  /\ filteredProducts
       (globals (handleSearch codeUnitCompare schemeProtocol "" page25))
     = catalog25.
Proof.
  split; [reflexivity|]. split.
  - destruct (handleSearch_view codeUnitCompare schemeProtocol "  SH " pricedPage)
      as (_ & _ & H).
    apply H. discriminate.
  - destruct (handleSearch_view codeUnitCompare schemeProtocol "" page25)
      as (_ & H & _).
    apply H; reflexivity.
Defined.

(** The term is matched after trimming: the title of [shirt] does not
    contain the untrimmed term, yet the search for it returns [shirt]. *)
Example search_trims_term :
  includes (toLowerCase (title shirt)) (toLowerCase "  SH ") = false
  /\ In shirt
        (filteredProducts
           (globals (handleSearch codeUnitCompare schemeProtocol "  SH "
                                  pricedPage))).
Proof. split; [reflexivity | now left]. Qed.

(** ** Page counts on concrete pages *)

(** C2, counterexample.  In the script's initial state the view is empty
    and the page count is 0, not 1. *)
Lemma totalPages_empty_view :
  List.length (filteredProducts initialGlobals) = 0%nat
  /\ itemsPerPage initialGlobals = 10
  /\ totalPagesOf initialGlobals = 0
  /\ ~ totalPages_claim initialGlobals.
Proof.
  repeat (split; [reflexivity|]).
  intros (H & _). vm_compute in H. apply H. reflexivity.
Qed.

Lemma totalPages_ceil_witness :
  0 < itemsPerPage (globals page25)
  /\ totalPagesOf (globals page25) = 3
  /\ (totalPagesOf (globals page25) - 1) * 10 < 25
     <= totalPagesOf (globals page25) * 10.
Proof.
  assert (H : 0 < itemsPerPage (globals page25)) by reflexivity.
  split; [exact H|]. split; [reflexivity|].
  exact (proj1 (totalPages_ceil (globals page25) H)).
Defined.

(** The scenario of the specification: 25 products, 10 to a page. *)
Example scenario_25_by_10 :
  let d := dom (renderProducts schemeProtocol page25) in
  map (fun row => id (row_product row)) (productTableBody d)
    = [1; 2; 3; 4; 5; 6; 7; 8; 9; 10]
  /\ pageInfo d = Some (mkPageInfo 1 10 25)
  /\ linkPages (pagination d) = [1; 2; 3].
Proof. repeat split. Qed.

(** ** Page reset on concrete pages *)

(** C3, counterexample.  On page 2 with the ascending price sort selected,
    changing the sort key to the empty (no sort) value leaves page 2
    selected. *)
Lemma sort_cleared_keeps_page :
  currentSort (globals pricedPage) = "price-asc"
  /\ currentPage (globals pricedPage) = 2
  /\ currentPage
       (globals (sortOptionsChange codeUnitCompare schemeProtocol "" pricedPage))
     = 2
  /\ ~ sort_reset_claim codeUnitCompare schemeProtocol "" pricedPage.
Proof.
  repeat (split; [reflexivity|]).
  intros H. assert (Hne : "" <> currentSort (globals pricedPage)) by discriminate.
  specialize (H Hne). vm_compute in H. discriminate.
Qed.

Lemma page_reset_witness :
  currentPage (globals pricedPage) = 2
  /\ currentPage
       (globals (sortOptionsChange codeUnitCompare schemeProtocol "price-desc"
                                   pricedPage)) = 1
  /\ currentPage
       (globals (searchInput codeUnitCompare schemeProtocol "cap" pricedPage)) = 1.
Proof.
  destruct (page_reset codeUnitCompare schemeProtocol pricedPage)
    as (Hsearch & Hsort & _ & _).
  split; [reflexivity|]. split.
  - apply Hsort. discriminate.
  - apply Hsearch.
Defined.

(** ** Page changes on concrete pages *)

Lemma changePage_out_of_range_witness :
  totalPagesOf (globals page25) = 3
  /\ changePage schemeProtocol 0 page25 = page25
  /\ changePage schemeProtocol 4 page25 = page25.
Proof.
  assert (H : 0 < itemsPerPage (globals page25)) by reflexivity.
  split; [reflexivity|]. split.
  - apply (changePage_out_of_range schemeProtocol 0 page25 H). left. lia.
  - apply (changePage_out_of_range schemeProtocol 4 page25 H). right.
    reflexivity.
Defined.

Example changePage_accepts :
  currentPage (globals (changePage schemeProtocol 3 page25)) = 3
  /\ pageInfo (dom (changePage schemeProtocol 3 page25))
     = Some (mkPageInfo 21 25 25).
Proof. split; reflexivity. Qed.

(** ** The window of links on a concrete page *)

Lemma pagination_window_witness :
  linkPages (renderPagination (globals page25by2)) = [1; 4; 5; 6; 7; 8; 13]
  /\ exists first window last,
      linkPages (renderPagination (globals page25by2))
      = (first ++ window ++ last)%list
      /\ In 6 window /\ (List.length window <= 5)%nat.
Proof.
  split; [reflexivity|].
  destruct (pagination_window (globals page25by2))
    as (first & window & last & Heq & _ & _ & Hin & Hlen & _).
  - reflexivity.
  - reflexivity.
  - split; discriminate.
  - exists first, window, last. auto.
Defined.

(** ** Image elements on concrete URLs *)

(** A product image of [pictured] after its third failure: the relay is on
    display and the attempt index is 3. *)
Definition lastChance : Image := failures 3 (productImage 7 0 imgurUrl).

Lemma image_failure_terminal_witness :
  src lastChance = corsRelay imgurUrl
  /\ attemptIndex lastChance = 3
  /\ image_error (onerror lastChance) = true
  /\ shows_placeholder (onerror lastChance) = true
  /\ attemptIndex (onerror lastChance) = 3
  /\ failures 5 (onerror lastChance) = onerror lastChance.
Proof.
  split; [reflexivity|]. split; [reflexivity|].
  destruct (image_failure_terminal lastChance imgurUrl) as (Hexhaust & _).
  destruct (Hexhaust (mkWrapper 0 7 (Some 3) false))
    as (Hfailed & Hplaceholder & Hattempt);
    [reflexivity | reflexivity | discriminate |].
  split; [exact Hfailed|]. split; [exact Hplaceholder|].
  split; [exact Hattempt|].
  destruct (image_failure_terminal (onerror lastChance) imgurUrl)
    as (_ & Hterminal & _).
  apply Hterminal. exact Hfailed.
Defined.

(** The scenario of the specification: four failures in a row end in the
    placeholder, and a fifth failure event is ignored. *)
Example scenario_four_failures :
  let img := productImage 7 0 imgurUrl in
  image_error (failures 3 img) = false
  /\ image_error (failures 4 img) = true
  /\ shows_placeholder (failures 4 img) = true
  /\ failures 5 img = failures 4 img.
Proof. repeat split. Qed.

Lemma initial_strategy_deterministic_witness :
  getImageWithStrategies imgurUrl = proxyA imgurUrl
  /\ strategyIndex imgurUrl = 1
  /\ getImageWithStrategies placeimgUrl = placeimgUrl
  /\ In (getImageWithStrategies imgurUrl)
        [direct imgurUrl; proxyA imgurUrl; proxyB imgurUrl].
Proof.
  split; [reflexivity|]. split; [reflexivity|]. split; [reflexivity|].
  apply (initial_strategy_deterministic imgurUrl imgurUrl eq_refl).
Defined.


(** ** Sorting a concrete view *)

Lemma price_sorts_reverse_witness :
  sorted codeUnitCompare "price-asc" [shirt; cap; shoes] = [cap; shirt; shoes]
  /\ sorted codeUnitCompare "price-desc" [shirt; cap; shoes]
     = rev (sorted codeUnitCompare "price-asc" [shirt; cap; shoes]).
Proof.
  split; [reflexivity|].
  apply (price_sorts_reverse codeUnitCompare [shirt; cap; shoes]).
  repeat constructor; simpl; intuition discriminate.
Defined.

(** With equal prices the two orders are not each other's reverse: the
    sort is stable, so equal-priced products keep their order both ways. *)
Example equal_prices_not_reversed :
  let twin := item 4 "Sun Hat" 10 in
  sorted codeUnitCompare "price-asc" [cap; twin] = [cap; twin]
  /\ sorted codeUnitCompare "price-desc" [cap; twin] = [cap; twin].
Proof. split; reflexivity. Qed.

(** ** The first failure of a rendered product image *)

(** The first image of [pictured] starts on proxy variant A, the hash's
    choice, and its first failure selects proxy variant A again. *)
Lemma first_failure_uses_proxyA_witness :
  let img := productImage 7 0 imgurUrl in
  In (Element img) (row_images (createProductRow schemeProtocol pictured))
  /\ src img = proxyA imgurUrl
  /\ src (onerror img) = proxyA imgurUrl
  /\ attemptIndex (onerror img) = 1.
Proof.
  cbv zeta.
  assert (Hin : In (Element (productImage 7 0 imgurUrl))
                   (row_images (createProductRow schemeProtocol pictured)))
    by (left; reflexivity).
  split; [exact Hin|]. split; [reflexivity|].
  destruct (first_failure_uses_proxyA schemeProtocol pictured _ Hin)
    as (_ & _ & _ & Hsrc & _ & Hattempt).
  split; [exact Hsrc | exact Hattempt].
Defined.


(** ** An image URL with an apostrophe *)

Definition apostropheUrl : string := "https://example.com/women's.jpg".

Definition scarf : Product :=
  mkProduct 8 "Scarf" 15 "" (Some (mkCategory "Women" apostropheUrl))
            [apostropheUrl].

(** C10, at the failing input.  The entry passes the validity filter and
    is its own cleaned URL, yet in the script written for it the string
    literal ends at the apostrophe, after [women], and is followed by
    [s.jpg')] instead of the closing parenthesis: the attribute is not the
    call of the handler with the URL, and the markup of the row is not the
    element whose first failure would select proxy variant A.  The same
    holds for the category image of the row. *)
Theorem apostrophe_breaks_handler :
  validImage schemeProtocol apostropheUrl = true
  /\ cleanImage apostropheUrl = apostropheUrl
  /\ onerrorScript apostropheUrl
     = "handleImageError(this, 'https://example.com/women's.jpg')"
  /\ argumentLiteral apostropheUrl
     = Some ("https://example.com/women", "s.jpg')")
  /\ row_images (createProductRow schemeProtocol scarf) = [Garbled apostropheUrl]
  /\ row_category_image (createProductRow schemeProtocol scarf)
     = Some (Garbled apostropheUrl).
Proof. repeat split. Qed.

(** * Further properties on concrete pages *)

Definition blankDocument : Document :=
  mkDocument (mkPage initialGlobals emptyDom) false None.

(** A session on the catalog of twenty-five products. *)
Definition session : list Event :=
  [Search "item"; SortChange "price-desc"; PageSizeChange 4; GoToPage 7;
   GoToPage 9; SortChange ""; Search " ITEM "; GoToPage 2].

Lemma pages_partition_view_witness :
  0 < itemsPerPage (globals page25)
  /\ List.concat
       (map (fun page => productsToShow (set_currentPage page (globals page25)))
            [1; 2; 3])
     = catalog25.
Proof.
  assert (H : 0 < itemsPerPage (globals page25)) by reflexivity.
  split; [exact H|].
  exact (proj1 (pages_partition_view (globals page25) H)).
Defined.

Lemma rendered_page_matches_info_witness :
  pageInfo (dom (renderProducts schemeProtocol page25by2))
  = Some (mkPageInfo 11 12 25)
  /\ exists info,
      pageInfo (dom (renderProducts schemeProtocol page25by2)) = Some info
      /\ Z.of_nat (List.length
                     (productTableBody
                        (dom (renderProducts schemeProtocol page25by2))))
         = info_end info - info_start info + 1.
Proof.
  split; [reflexivity|].
  destruct (rendered_page_matches_info schemeProtocol page25by2)
    as (info & Hinfo & _ & _ & _ & _ & _ & Hrows & _).
  - reflexivity.
  - split; discriminate.
  - exists info. split; [exact Hinfo | exact Hrows].
Defined.

Lemma search_without_match_witness :
  termOf " Zebra" = "zebra"
  /\ handleSearch codeUnitCompare schemeProtocol " Zebra"
                  (renderProducts schemeProtocol pricedPage)
     = mkPage (mkGlobals [shirt; cap; shoes] [] 1 2 "price-asc")
              (mkDom (map (createProductRow schemeProtocol) [shoes])
                     [PrevButton false 1; PageLink false 1; PageLink true 2;
                      NextButton true 3]
                     (Some (mkPageInfo 3 3 3)) true false 0).
Proof.
  split; [reflexivity|].
  apply (search_without_match codeUnitCompare schemeProtocol " Zebra"
           (renderProducts schemeProtocol pricedPage)).
  - discriminate.
  - intros product [<-|[<-|[<-|[]]]]; reflexivity.
Defined.

Lemma run_consistent_witness :
  consistent (globals (run codeUnitCompare schemeProtocol session page25))
  /\ allProducts (globals (run codeUnitCompare schemeProtocol session page25))
     = catalog25
  /\ currentPage (globals (run codeUnitCompare schemeProtocol session page25))
     = 2.
Proof.
  assert (Hoffered : Forall offered session)
    by (repeat constructor).
  assert (Hstart : consistent (globals page25)).
  { repeat split; try reflexivity; try discriminate.
    - now left.
    - exists (fun _ => true). apply Permutation_refl. }
  destruct (run_consistent codeUnitCompare schemeProtocol session page25
              Hoffered Hstart) as [Hgood Hcatalog].
  split; [exact Hgood|]. split; [exact Hcatalog | reflexivity].
Defined.

Lemma pagination_items_lead_somewhere_witness :
  activePages (renderPagination (globals page25by2)) = [6]
  /\ In (NextButton false 7) (renderPagination (globals page25by2))
  /\ currentPage (globals (changePage schemeProtocol 7 page25by2)) = 7.
Proof.
  destruct (pagination_items_lead_somewhere schemeProtocol page25by2)
    as [Hactive Hitems]; [reflexivity | reflexivity | split; discriminate |].
  assert (Hin : In (NextButton false 7) (renderPagination (globals page25by2)))
    by (vm_compute; repeat (first [left; reflexivity | right])).
  split; [exact Hactive|]. split; [exact Hin|].
  exact (proj2 (proj2 (Hitems _ Hin))).
Defined.

Lemma price_sort_kept_witness :
  sortOptionsChange codeUnitCompare schemeProtocol "price-desc"
    (sortOptionsChange codeUnitCompare schemeProtocol "price-desc" pricedPage)
  = sortOptionsChange codeUnitCompare schemeProtocol "price-desc" pricedPage.
Proof.
  apply (price_sort_kept codeUnitCompare schemeProtocol "price-desc" pricedPage).
  now right.
Defined.

Lemma fallback_chain_bounded_witness :
  image_error (failures 3 (productImage 7 0 imgurUrl)) = false
  /\ image_error (failures 4 (productImage 7 0 imgurUrl)) = true.
Proof.
  split; [reflexivity|].
  apply (fallback_chain_bounded (productImage 7 0 imgurUrl)
           (mkWrapper 0 7 (Some 0) false)).
  - reflexivity.
  - discriminate.
Defined.

Lemma fetch_failure_witness :
  errorRow (fetchProducts schemeProtocol (Response false 500 None) blankDocument)
  = Some ProductsNotLoaded
  /\ globals (page (fetchProducts schemeProtocol Rejected blankDocument))
     = initialGlobals.
Proof.
  split.
  - apply (fetch_failure schemeProtocol (Response false 500 None) blankDocument).
    discriminate.
  - apply (fetch_failure schemeProtocol Rejected blankDocument). discriminate.
Defined.

(** A load that brings an empty list: the table container and the
    no-results block are both on display. *)
Example fetch_empty_catalog :
  let doc := fetchProducts schemeProtocol (Response true 200 (Some [])) blankDocument in
  tableContainer_shown (dom (page doc)) = true
  /\ noResults_shown (dom (page doc)) = true.
Proof. split; reflexivity. Qed.

Lemma changePage_accepted_witness :
  totalPagesOf (globals page25) = 3
  /\ map (fun row => id (row_product row))
         (productTableBody (dom (changePage schemeProtocol 3 page25)))
     = [21; 22; 23; 24; 25]
  /\ scrolls (dom (changePage schemeProtocol 3 page25)) = 1%nat.
Proof.
  split; [reflexivity|].
  rewrite (changePage_accepted schemeProtocol 3 page25);
    [split; reflexivity | reflexivity | split; discriminate].
Defined.

Lemma cleanImage_unwraps_witness :
  cleanImage (" " ++ openQuote ++ placeimgUrl ++ closeQuote ++ "  ")
  = placeimgUrl.
Proof.
  apply (cleanImage_unwraps placeimgUrl " " "  "); reflexivity.
Defined.

Example escapeHtml_title :
  escapeHtml "Tom & Jerry's <new> mug" = "Tom &amp; Jerry&#039;s &lt;new&gt; mug".
Proof. reflexivity. Qed.

(** ** Comparison by code units is a consistent comparator *)

Lemma compare_not_after_trans (a b c : string) :
  String.compare a b <> Gt -> String.compare b c <> Gt ->
  String.compare a c <> Gt.
Proof.
  revert b c. induction a as [|x a IH]; intros [|y b] [|z c]; simpl;
    try congruence.
  unfold Ascii.compare.
  destruct (N.compare_spec (N_of_ascii x) (N_of_ascii y)) as [Exy|Lxy|Gxy];
    destruct (N.compare_spec (N_of_ascii y) (N_of_ascii z)) as [Eyz|Lyz|Gyz];
    destruct (N.compare_spec (N_of_ascii x) (N_of_ascii z)) as [Exz|Lxz|Gxz];
    intros H1 H2; try congruence; try lia.
  now apply (IH b c).
Qed.

Lemma codeUnitCompare_total (a b : string) :
  0 < codeUnitCompare a b -> codeUnitCompare b a <= 0.
Proof.
  unfold codeUnitCompare. rewrite (String.compare_antisym b a).
  destruct (String.compare a b); simpl; lia.
Qed.

Lemma codeUnitCompare_trans (a b c : string) :
  codeUnitCompare a b <= 0 -> codeUnitCompare b c <= 0 ->
  codeUnitCompare a c <= 0.
Proof.
  unfold codeUnitCompare. intros H1 H2.
  pose proof (compare_not_after_trans a b c) as H.
  destruct (String.compare a b), (String.compare b c), (String.compare a c);
    try lia; exfalso; apply H; congruence.
Qed.

Lemma name_sorts_ordered_witness :
  map title (sorted codeUnitCompare "name-asc" [shirt; cap; shoes])
  = ["Baseball Cap"; "Classic T-Shirt"; "Running SHOES"]
  /\ sorted codeUnitCompare "name-asc"
       (sorted codeUnitCompare "name-asc" [shirt; cap; shoes])
     = sorted codeUnitCompare "name-asc" [shirt; cap; shoes].
Proof.
  split; [reflexivity|].
  apply (name_sorts_ordered codeUnitCompare [shirt; cap; shoes]
           codeUnitCompare_total codeUnitCompare_trans).
Defined.
